(** * CampusConnect+ plagiarism detection: a shallow embedding

    The two detection modules of the repository are embedded here:

    - [plagiarism_checker.py] (class [PlagiarismChecker]): text
      normalisation, sliding word windows, [difflib.SequenceMatcher]
      similarity, the database comparison loop and the risk report;
    - [plagiarism_detector.py]: [clean_text] and [check_plagiarism], the
      TF-IDF / cosine comparison against peer submissions.

    Conventions.
    - A Python [str] is a [list ascii]; an [ascii] value stands for the
      code point of the same number (U+0000 .. U+00FF), and the character
      classes below are Python's own on that range.
    - A Python exception is a [Raise] in the [result] monad.
    - The scores of [plagiarism_checker.py] are quotients of integers and
      fixed weights; they are carried as exact rationals ([Q]).  The
      cosine scores of [plagiarism_detector.py] are the doubles
      scikit-learn returns ([float]); the library's arithmetic is a
      parameter of [check_plagiarism]. *)

From Stdlib Require Import ZArith QArith Qminmax Ascii String List Lia Bool.
From Stdlib Require Import Floats DecimalString Lqa.
From stdpp Require Import base list gmap strings sorting.

Import ListNotations.
Local Open Scope nat_scope.

(** ** Exceptions *)

Inductive exn : Type :=
  | ValueError          (* scikit-learn: empty vocabulary *)
  | ZeroDivisionError   (* x / 0 *)
  | IndexError          (* list index out of range *)
  | EmptyCorpusError    (* named by the specification; nothing raises it *)
  | LoopBound.          (* not a Python exception: an iteration bound of the
                           embedding was exhausted before the loop ended *)

Inductive result (A : Type) : Type :=
  | Ok (a : A)
  | Raise (e : exn).
Arguments Ok {A} a.
Arguments Raise {A} e.

Global Instance result_ret : MRet result := fun _ a => Ok a.
Global Instance result_bind : MBind result := fun _ _ f m =>
  match m with
  | Ok a => f a
  | Raise e => Raise e
  end.

Definition raises {A} (m : result A) : bool :=
  match m with Ok _ => false | Raise _ => true end.

(** [a / b] on Python integers: true division. *)
Definition truediv (a b : Z) : result Q :=
  if (b =? 0)%Z then Raise ZeroDivisionError
  else Ok (inject_Z a / inject_Z b)%Q.

(** ** Strings *)

Definition str : Type := list ascii.

Definition lit (s : string) : str := list_ascii_of_string s.

Definition code (c : ascii) : N := N_of_ascii c.

Definition between (lo hi : N) (c : ascii) : bool :=
  ((lo <=? code c) && (code c <=? hi))%N.

(** [str.lower()], one character at a time: A-Z and the capital letters
    U+00C0 .. U+00DE (U+00D7, the multiplication sign, is no letter). *)
Definition lower_char (c : ascii) : ascii :=
  if between 65 90 c || (between 192 222 c && negb (code c =? 215)%N)
  then ascii_of_N (code c + 32)
  else c.

Definition str_lower (s : str) : str := map lower_char s.

(** [\s] of [re], [str.isspace], and the characters [str.split()] and
    [str.strip()] treat as blank. *)
Definition isspace (c : ascii) : bool :=
  between 9 13 c || between 28 32 c || (code c =? 133)%N || (code c =? 160)%N.

(** [\d] of [re]. *)
Definition isdigit (c : ascii) : bool := between 48 57 c.

(** [\w] of [re]: alphanumeric or underscore. *)
Definition isword (c : ascii) : bool :=
  between 48 57 c || between 65 90 c || (code c =? 95)%N || between 97 122 c
  || (code c =? 170)%N || between 178 179 c || (code c =? 181)%N
  || between 185 186 c || between 188 190 c || between 192 214 c
  || between 216 246 c || between 248 255 c.

(** Membership in [string.punctuation]. *)
Definition ispunct (c : ascii) : bool :=
  between 33 47 c || between 58 64 c || between 91 96 c || between 123 126 c.

Definition space : ascii := " "%char.

(** [re.sub(r'\s+', ' ', s)]: every maximal run of blanks becomes one
    space.  [in_run] tells that the previous character was a blank. *)
Fixpoint sub_ws_runs (in_run : bool) (s : str) : str :=
  match s with
  | [] => []
  | c :: s' =>
      if isspace c
      then if in_run then sub_ws_runs true s' else space :: sub_ws_runs true s'
      else c :: sub_ws_runs false s'
  end.

(** [re.sub(r'[^\w\s]', ' ', s)]. *)
Definition sub_nonword (s : str) : str :=
  map (fun c => if isword c || isspace c then c else space) s.

Fixpoint str_lstrip (s : str) : str :=
  match s with
  | [] => []
  | c :: s' => if isspace c then str_lstrip s' else s
  end.

Definition str_rstrip (s : str) : str := rev (str_lstrip (rev s)).

(** [s.strip()]. *)
Definition str_strip (s : str) : str := str_rstrip (str_lstrip s).

(** [re.sub(r'\d+', '', s)]. *)
Definition sub_digits (s : str) : str :=
  List.filter (fun c => negb (isdigit c)) s.

(** [s.translate(str.maketrans('', '', string.punctuation))]. *)
Definition delete_punctuation (s : str) : str :=
  List.filter (fun c => negb (ispunct c)) s.

(** [s.split()]: the maximal runs of non-blank characters.  [split_go]
    returns the word being read at the head of the string and the words
    after it. *)
Definition push_word (w : str) (ws : list str) : list str :=
  match w with
  | [] => ws
  | _ :: _ => w :: ws
  end.

Fixpoint split_go (s : str) : str * list str :=
  match s with
  | [] => ([], [])
  | c :: s' =>
      let '(w, ws) := split_go s' in
      if isspace c then ([], push_word w ws) else (c :: w, ws)
  end.

Definition str_split (s : str) : list str :=
  let '(w, ws) := split_go s in push_word w ws.

(** [sep.join(ws)]. *)
Fixpoint str_join (sep : str) (ws : list str) : str :=
  match ws with
  | [] => []
  | [w] => w
  | w :: ws' => w ++ sep ++ str_join sep ws'
  end.

Fixpoint starts_with (p s : str) : bool :=
  match p, s with
  | [], _ => true
  | _ :: _, [] => false
  | a :: p', b :: s' => if ascii_dec a b then starts_with p' s' else false
  end.

(** [p in s] on strings. *)
Fixpoint str_contains (s p : str) : bool :=
  starts_with p s ||
  match s with
  | [] => false
  | _ :: s' => str_contains s' p
  end.

(** [str(n)] on an integer. *)
Definition str_of_int (n : Z) : str :=
  list_ascii_of_string (NilZero.string_of_int (Z.to_int n)).

(** [l[start:stop]] with Python's treatment of negative and oversized
    bounds. *)
Definition slice_bound (len x : Z) : Z :=
  if (x <? 0)%Z then Z.max 0 (x + len) else Z.min x len.

Definition py_slice {A} (l : list A) (start stop : Z) : list A :=
  let len := Z.of_nat (length l) in
  let s := slice_bound len start in
  let e := slice_bound len stop in
  take (Z.to_nat (e - s)) (drop (Z.to_nat s) l).

(** ** plagiarism_checker.py: normalisation and phrases *)

Definition min_similarity_threshold : Q := 7 # 10.
Definition min_phrase_length : Z := 5.

Definition normalize_text (text : str) : str :=
  let text := str_lower text in
  let text := sub_ws_runs false text in
  let text := sub_nonword text in
  let text := str_strip text in
  text.

(** [for i in range(n): phrases.append(' '.join(words[i:i + phrase_length]))] *)
Definition extract_phrases (text : str) (phrase_length : Z) : list str :=
  let words := str_split text in
  let n := (Z.of_nat (length words) - phrase_length + 1)%Z in
  map (fun i : nat =>
         str_join [space] (py_slice words (Z.of_nat i) (Z.of_nat i + phrase_length)))
      (seq 0 (Z.to_nat n)).

(** ** plagiarism_detector.py: clean_text *)

Definition clean_text (text : str) : str :=
  let text := str_lower text in
  let text := sub_digits text in
  let text := delete_punctuation text in
  text.

(** ** difflib.SequenceMatcher(None, a, b)

    [calculate_similarity] calls the standard library's sequence matcher
    with no junk predicate and [autojunk] left at its default.  The model
    follows [difflib.py]: [__chain_b], [find_longest_match],
    [get_matching_blocks], [ratio]. *)

Record Match : Type := mkMatch { m_a : nat; m_b : nat; m_size : nat }.

(** A slice pair still to be compared: [(alo, ahi, blo, bhi)]. *)
Definition region : Type := (nat * nat * nat * nat)%type.

(** Tuple order of [Match], used by [matching_blocks.sort()]. *)
Definition match_le (x y : Match) : Prop :=
  m_a x < m_a y \/
  (m_a x = m_a y /\ (m_b x < m_b y \/ (m_b x = m_b y /\ m_size x <= m_size y))).

Global Instance match_le_dec : RelDecision match_le.
Proof. intros x y. unfold match_le. apply _. Defined.

Fixpoint positions (elt : ascii) (l : str) (i : nat) : list nat :=
  match l with
  | [] => []
  | c :: l' =>
      if ascii_dec c elt then i :: positions elt l' (S i)
      else positions elt l' (S i)
  end.

(** [_calculate_ratio(matches, length)]. *)
Definition _calculate_ratio (matches length : nat) : result Q :=
  if length =? 0 then Ok 1%Q
  else truediv (2 * Z.of_nat matches) (Z.of_nat length).

Section SequenceMatcher.
Variables a b : str.

(** [b2j.get(elt, [])] after [__chain_b]: the indices of [elt] in [b],
    unless [b] has 200 elements or more and [elt] fills more than
    [n // 100 + 1] of them (the "popular" elements are dropped). *)
Definition b2j (elt : ascii) : list nat :=
  let idxs := positions elt b 0 in
  let n := length b in
  if (200 <=? n) && (n / 100 + 1 <? length idxs) then [] else idxs.

(** [bjunk] is empty: [isjunk] is [None]. *)
Definition isbjunk (elt : ascii) : bool := false.

(** The inner loop of [find_longest_match] for a fixed [i]:
    [for j in b2j.get(a[i], nothing)]. *)
Fixpoint scan_row (i blo bhi : nat) (j2len : gmap nat nat) (js : list nat)
    (newj2len : gmap nat nat) (best : Match) : gmap nat nat * Match :=
  match js with
  | [] => (newj2len, best)
  | j :: js' =>
      if j <? blo then scan_row i blo bhi j2len js' newj2len best
      else if bhi <=? j then (newj2len, best)
      else
        let k := match j with
                 | O => 0
                 | S j' => default 0 (j2len !! j')
                 end + 1 in
        let newj2len := <[j := k]> newj2len in
        let best := if m_size best <? k
                    then mkMatch (i + 1 - k) (j + 1 - k) k
                    else best in
        scan_row i blo bhi j2len js' newj2len best
  end.

(** One turn of [for i in range(alo, ahi)].  [get_matching_blocks] only
    asks for slices of [a] and [b], so [a[i]] is always there. *)
Definition scan_step (blo bhi : nat) (st : gmap nat nat * Match) (i : nat)
    : gmap nat nat * Match :=
  match a !! i with
  | Some elt => scan_row i blo bhi (fst st) (b2j elt) ∅ (snd st)
  | None => (∅, snd st)
  end.

(** [pred(b[j]) and a[i] == b[j]], for indices inside [a] and [b] (the
    loop conditions are tested first and keep them there). *)
Definition same_elt (pred : ascii -> bool) (i j : nat) : bool :=
  match a !! i, b !! j with
  | Some x, Some y => pred y && bool_decide (x = y)
  | _, _ => false
  end.

(** [while besti > alo and bestj > blo and pred(b[bestj-1]) and
    a[besti-1] == b[bestj-1]]. *)
Fixpoint extend_left (pred : ascii -> bool) (alo blo : nat)
    (besti bestj bestsize : nat) {struct besti} : Match :=
  match besti, bestj with
  | S i', S j' =>
      if (alo <? besti) && (blo <? bestj) && same_elt pred i' j'
      then extend_left pred alo blo i' j' (bestsize + 1)
      else mkMatch besti bestj bestsize
  | _, _ => mkMatch besti bestj bestsize
  end.

(** [while besti+bestsize < ahi and bestj+bestsize < bhi and
    pred(b[bestj+bestsize]) and a[besti+bestsize] == b[bestj+bestsize]];
    [n] bounds the number of turns. *)
Fixpoint extend_right (pred : ascii -> bool) (ahi bhi : nat) (n : nat)
    (besti bestj bestsize : nat) : Match :=
  match n with
  | O => mkMatch besti bestj bestsize
  | S n' =>
      if (besti + bestsize <? ahi) && (bestj + bestsize <? bhi)
         && same_elt pred (besti + bestsize) (bestj + bestsize)
      then extend_right pred ahi bhi n' besti bestj (bestsize + 1)
      else mkMatch besti bestj bestsize
  end.

Definition extend (pred : ascii -> bool) (alo ahi blo bhi : nat) (m : Match)
    : Match :=
  let m := extend_left pred alo blo (m_a m) (m_b m) (m_size m) in
  extend_right pred ahi bhi (ahi - (m_a m + m_size m)) (m_a m) (m_b m) (m_size m).

Definition find_longest_match (alo ahi blo bhi : nat) : Match :=
  let best := snd (fold_left (scan_step blo bhi) (seq alo (ahi - alo))
                             (∅, mkMatch alo blo 0)) in
  let best := extend (fun elt => negb (isbjunk elt)) alo ahi blo bhi best in
  let best := extend isbjunk alo ahi blo bhi best in
  best.

(** The work loop of [get_matching_blocks].  The Python list [queue]
    is used as a stack ([append] / [pop]); its last element is the
    head here. *)
Fixpoint blocks_loop (fuel : nat) (queue : list region)
    (matching_blocks : list Match) : result (list Match) :=
  match queue with
  | [] => Ok matching_blocks
  | (alo, ahi, blo, bhi) :: queue =>
      match fuel with
      | O => Raise LoopBound
      | S fuel' =>
          let x := find_longest_match alo ahi blo bhi in
          let i := m_a x in
          let j := m_b x in
          let k := m_size x in
          if k =? 0 then blocks_loop fuel' queue matching_blocks
          else
            let queue :=
              if (alo <? i) && (blo <? j) then (alo, i, blo, j) :: queue
              else queue in
            let queue :=
              if (i + k <? ahi) && (j + k <? bhi)
              then (i + k, ahi, j + k, bhi) :: queue
              else queue in
            blocks_loop fuel' queue (matching_blocks ++ [x])
      end
  end.

(** The merging of adjacent blocks at the end of [get_matching_blocks]. *)
Fixpoint collapse (i1 j1 k1 : nat) (blocks non_adjacent : list Match)
    : list Match :=
  match blocks with
  | [] => if k1 =? 0 then non_adjacent
          else non_adjacent ++ [mkMatch i1 j1 k1]
  | x :: rest =>
      if (i1 + k1 =? m_a x) && (j1 + k1 =? m_b x)
      then collapse i1 j1 (k1 + m_size x) rest non_adjacent
      else collapse (m_a x) (m_b x) (m_size x) rest
             (if k1 =? 0 then non_adjacent
              else non_adjacent ++ [mkMatch i1 j1 k1])
  end.

Definition get_matching_blocks : result (list Match) :=
  let la := length a in
  let lb := length b in
  matching_blocks ← blocks_loop (2 * la + 1) [(0, la, 0, lb)] [];
  let matching_blocks := merge_sort match_le matching_blocks in
  let non_adjacent := collapse 0 0 0 matching_blocks [] in
  Ok (non_adjacent ++ [mkMatch la lb 0]).

Definition ratio : result Q :=
  blocks ← get_matching_blocks;
  let matches := sum_list_with m_size blocks in
  _calculate_ratio matches (length a + length b).
End SequenceMatcher.

(** ** plagiarism_checker.py: the comparison operations *)

(** [x < y] and [max(x, y)] on scores. *)
Definition Qltb (x y : Q) : bool := negb (Qle_bool y x).

Definition py_max (x y : Q) : Q := if Qltb x y then y else x.

Definition calculate_similarity (text1 text2 : str) : result Q :=
  let normalized_text1 := normalize_text text1 in
  let normalized_text2 := normalize_text text2 in
  ratio normalized_text1 normalized_text2.

Definition phrase_set (text : str) (phrase_length : Z) : gset str :=
  list_to_set (extract_phrases (normalize_text text) phrase_length).

Definition check_phrase_overlap (text1 text2 : str) (phrase_length : Z)
    : result Q :=
  let phrases1 := phrase_set text1 phrase_length in
  let phrases2 := phrase_set text2 phrase_length in
  if bool_decide (phrases1 = ∅) || bool_decide (phrases2 = ∅) then Ok 0%Q
  else
    let common_phrases := phrases1 ∩ phrases2 in
    truediv (Z.of_nat (size common_phrases))
            (Z.of_nat (Nat.min (size phrases1) (size phrases2))).

Definition common_phrases : list str :=
  map lit
    [ "in this paper we"%string;
      "the purpose of this study"%string;
      "our research shows"%string;
      "the results indicate"%string;
      "in conclusion"%string;
      "this study aims to"%string;
      "the main objective"%string;
      "our findings suggest"%string;
      "previous research has shown"%string;
      "it is important to note"%string ].

Definition check_common_phrases (text : str) : result Q :=
  let normalized_text := normalize_text text in
  let phrase_count :=
    length (List.filter (str_contains normalized_text) common_phrases) in
  truediv (Z.of_nat phrase_count) (Z.of_nat (length common_phrases)).

(** ** plagiarism_checker.py: the database comparison *)

(** A row of [abstract_submissions], with the columns the checker reads
    or selects on. *)
Record submission : Type := mkSubmission {
  sub_id : Z;
  sub_event_id : Z;
  sub_title : str;
  sub_abstract_text : str;
  sub_user_id : Z;
  sub_is_latest_version : bool
}.

(** The [SELECT] of [check_against_database]; [exclude_submission_id]
    adds its clause only when it is truthy (neither [None] nor 0). *)
Definition select_submissions (table : list submission) (event_id : Z)
    (exclude_submission_id : option Z) : list submission :=
  List.filter
    (fun s =>
       (sub_event_id s =? event_id)%Z && sub_is_latest_version s &&
       match exclude_submission_id with
       | Some x => if (x =? 0)%Z then true else negb (sub_id s =? x)%Z
       | None => true
       end)
    table.

Record scan_state : Type := mkScan {
  max_similarity : Q;
  max_phrase_overlap : Q;
  similar_submission : option submission
}.

(** The body of [for submission in submissions]. *)
Definition scan_submission (text : str) (st : scan_state) (s : submission)
    : result scan_state :=
  title_similarity ← calculate_similarity text (sub_title s);
  abstract_similarity ← calculate_similarity text (sub_abstract_text s);
  phrase_overlap ← check_phrase_overlap text (sub_abstract_text s) 5;
  let current_similarity := py_max title_similarity abstract_similarity in
  let st :=
    if Qltb (max_similarity st) current_similarity
    then mkScan current_similarity (max_phrase_overlap st) (Some s)
    else st in
  let st :=
    if Qltb (max_phrase_overlap st) phrase_overlap
    then mkScan (max_similarity st) phrase_overlap (similar_submission st)
    else st in
  Ok st.

Fixpoint scan_submissions (text : str) (submissions : list submission)
    (st : scan_state) : result scan_state :=
  match submissions with
  | [] => Ok st
  | s :: rest =>
      st ← scan_submission text st s;
      scan_submissions text rest st
  end.

Record db_check : Type := mkDbCheck {
  db_similarity_score : Q;
  db_text_similarity : Q;
  db_phrase_overlap : Q;
  db_similar_submission : option submission;
  db_is_suspicious : bool
}.

Definition check_against_database (table : list submission) (text : str)
    (event_id : Z) (exclude_submission_id : option Z) : result db_check :=
  let submissions := select_submissions table event_id exclude_submission_id in
  st ← scan_submissions text submissions (mkScan 0 0 None);
  let combined_score :=
    (max_similarity st * (7 # 10) + max_phrase_overlap st * (3 # 10))%Q in
  Ok (mkDbCheck combined_score (max_similarity st) (max_phrase_overlap st)
        (similar_submission st)
        (Qltb min_similarity_threshold combined_score)).

(** ** plagiarism_checker.py: the risk report *)

Inductive risk : Type := HIGH | MEDIUM | LOW | MINIMAL.

Definition classify (overall_risk : Q) : risk :=
  if Qltb (8 # 10) overall_risk then HIGH
  else if Qltb (5 # 10) overall_risk then MEDIUM
  else if Qltb (3 # 10) overall_risk then LOW
  else MINIMAL.

Definition _generate_recommendations (overall_risk : Q) (db : db_check)
    : list str :=
  let recommendations :=
    if Qltb (8 # 10) overall_risk then
      [ lit "URGENT: Manual review required - high similarity detected";
        lit "Consider rejecting or requesting major revision" ]
    else if Qltb (5 # 10) overall_risk then
      [ lit "Manual review recommended - moderate similarity detected";
        lit "Request clarification or minor revision" ]
    else if Qltb (3 # 10) overall_risk then
      [ lit "Low risk detected - brief review suggested" ]
    else
      [ lit "Minimal plagiarism risk - safe to approve" ] in
  match db_similar_submission db with
  | Some s =>
      recommendations ++
      [ lit "Similar content found in submission ID: " ++ str_of_int (sub_id s) ]
  | None => recommendations
  end.

Record report : Type := mkReport {
  overall_score : Q;
  risk_level : risk;
  database_similarity : Q;
  text_similarity : Q;
  phrase_overlap : Q;
  common_phrases_ratio : Q;
  report_similar_submission : option submission;
  is_suspicious : bool;
  recommendations : list str
}.

(** [(len(text.split()) < 50)] as the number it is multiplied as. *)
Definition short_text_penalty (text : str) : Q :=
  if length (str_split text) <? 50 then 1%Q else 0%Q.

Definition generate_report (table : list submission) (text : str)
    (event_id : Z) (exclude_submission_id : option Z) : result report :=
  db ← check_against_database table text event_id exclude_submission_id;
  ratio ← check_common_phrases text;
  let risk_factors :=
    [ (db_similarity_score db * (6 # 10))%Q;
      (ratio * (2 # 10))%Q;
      (short_text_penalty text * (2 # 10))%Q ] in
  let overall_risk := fold_left Qplus risk_factors 0%Q in
  Ok (mkReport overall_risk (classify overall_risk)
        (db_similarity_score db) (db_text_similarity db)
        (db_phrase_overlap db) ratio (db_similar_submission db)
        (Qltb (5 # 10) overall_risk)
        (_generate_recommendations overall_risk db)).

Definition check_abstract_plagiarism (table : list submission)
    (abstract_text : str) (event_id : Z) (submission_id : option Z)
    : result report :=
  generate_report table abstract_text event_id submission_id.

(** ** Fixed-point rendering of a double

    [format(x, ".2f")]: the exact value of the double, rounded to the
    nearest hundredth, ties to the even neighbour; the sign bit is kept
    (also on zero), and the specials print by name. *)

Definition is_finite (x : float) : bool :=
  match Prim2SF x with
  | S754_zero _ | S754_finite _ _ _ => true
  | S754_infinity _ | S754_nan => false
  end.

Definition round_half_even (num den : N) : N :=
  let q := (num / den)%N in
  let r := (num mod den)%N in
  if (2 * r <? den)%N then q
  else if (den <? 2 * r)%N then (q + 1)%N
  else if N.even q then q else (q + 1)%N.

(** The hundredths in [m * 2^e], rounded. *)
Definition hundredths (m : positive) (e : Z) : N :=
  match e with
  | Z0 => (Npos m * 100)%N
  | Zpos p => (Npos m * 2 ^ Npos p * 100)%N
  | Zneg p => round_half_even (Npos m * 100) (2 ^ Npos p)
  end.

Definition digit (d : N) : ascii := ascii_of_N (48 + d).

Definition str_of_N (n : N) : str :=
  list_ascii_of_string (NilZero.string_of_uint (N.to_uint n)).

Definition fixed2 (negative : bool) (n : N) : str :=
  (if negative then ["-"%char] else []) ++
  str_of_N (n / 100) ++
  ["."%char; digit (n mod 100 / 10); digit (n mod 10)].

Definition format_2f (x : float) : str :=
  match Prim2SF x with
  | S754_nan => lit "nan"
  | S754_infinity s => if s then lit "-inf" else lit "inf"
  | S754_zero s => fixed2 s 0
  | S754_finite s m e => fixed2 s (hundredths m e)
  end.

(** [f"{score * 100:.2f}%"]. *)
Definition percent (score : float) : str :=
  format_2f (score * 100)%float ++ ["%"%char].

(** ** plagiarism_detector.py: check_plagiarism

    [TfidfVectorizer()] is scikit-learn's, with its defaults: documents
    are lowercased and cut into tokens by the pattern [(?u)\b\w\w+\b]
    (maximal runs of two or more word characters), and [fit_transform]
    raises [ValueError] ("empty vocabulary") when no document of the
    corpus yields a token.  The weights of the matrix and the cosines are
    doubles computed inside the library: they are a parameter of the
    model. *)

Fixpoint word_runs_go (s : str) : str * list str :=
  match s with
  | [] => ([], [])
  | c :: s' =>
      let '(w, ws) := word_runs_go s' in
      if isword c then (c :: w, ws) else ([], push_word w ws)
  end.

Definition word_runs (s : str) : list str :=
  let '(w, ws) := word_runs_go s in push_word w ws.

(** [re.findall(r"(?u)\b\w\w+\b", doc.lower())]. *)
Definition tokenize (doc : str) : list str :=
  List.filter (fun w => 2 <=? length w) (word_runs (str_lower doc)).

(** The token rows behind [vectorizer.fit_transform(documents)]. *)
Definition fit_transform (documents : list str) : result (list (list str)) :=
  let rows := map tokenize documents in
  if forallb (fun row => bool_decide (row = [])) rows
  then Raise ValueError
  else Ok rows.

(** One dictionary of the returned list. *)
Record entry : Type := mkEntry { source : str; similarity : str }.

Section VectorSimilarity.
(** [cosine rows i]: the cosine of the TF-IDF rows [0] and [i + 1] of
    the matrix fitted on [rows], that is
    [cosine_similarity(tfidf_matrix[0:1], tfidf_matrix[1:])[0][i]]. *)
Variable cosine : list (list str) -> nat -> float.

Definition cosine_similarity (tfidf_matrix : list (list str)) : list float :=
  map (cosine tfidf_matrix) (seq 0 (length tfidf_matrix - 1)).

(** [for i, score in enumerate(similarity_scores[0])]. *)
Fixpoint collect_results (source_documents : list str) (i : nat)
    (scores : list float) (results : list entry) : result (list entry) :=
  match scores with
  | [] => Ok results
  | score :: scores' =>
      match source_documents !! i with
      | None => Raise IndexError
      | Some doc =>
          collect_results source_documents (S i) scores'
            (results ++ [mkEntry doc (percent score)])
      end
  end.

Definition check_plagiarism (user_text : str) (source_documents : list str)
    : result (list entry) :=
  match user_text with
  | [] => Ok []
  | _ :: _ =>
      let documents := [user_text] ++ source_documents in
      let cleaned_documents := map clean_text documents in
      if length cleaned_documents <? 2 then Ok []
      else
        tfidf_matrix ← fit_transform cleaned_documents;
        let similarity_scores := cosine_similarity tfidf_matrix in
        collect_results source_documents 0 similarity_scores []
  end.
End VectorSimilarity.

(** ** plagiarism_checker.py: the stored verdicts

    A row of [abstract_submissions] with the two columns the checker
    writes: [plagiarism_score] (NULL until a check ran) and
    [plagiarism_status] ('pending' by default).  The table is the state
    the two functions below read and update. *)

Record stored : Type := mkStored {
  stored_row : submission;
  plagiarism_score : option Q;
  plagiarism_status : str
}.

(** [UPDATE abstract_submissions SET plagiarism_score = ?,
    plagiarism_status = ? WHERE id = ?]; the function answers [True]
    once the update is committed. *)
Definition update_submission_plagiarism_score (db : list stored)
    (submission_id : Z) (score : Q) (status : str) : list stored * bool :=
  (map (fun r =>
          if (sub_id (stored_row r) =? submission_id)%Z
          then mkStored (stored_row r) (Some score) status
          else r) db,
   true).

(** The [SELECT] of [batch_check_plagiarism]: the latest versions of the
    event that are still pending. *)
Definition pending_submissions (db : list stored) (event_id : Z) : list stored :=
  List.filter
    (fun r =>
       (sub_event_id (stored_row r) =? event_id)%Z
       && sub_is_latest_version (stored_row r)
       && bool_decide (plagiarism_status r = lit "pending"))
    db.

(** The body of [for submission in submissions] in
    [batch_check_plagiarism]: a report that raises is skipped. *)
Definition check_pending (event_id : Z)
    (st : list stored * list (Z * report)) (s : stored)
    : list stored * list (Z * report) :=
  let db := st.1 in
  let results := st.2 in
  match generate_report (map stored_row db)
          (sub_abstract_text (stored_row s)) event_id
          (Some (sub_id (stored_row s))) with
  | Ok r =>
      let status := if is_suspicious r then lit "flagged" else lit "clean" in
      let db := (update_submission_plagiarism_score db
                   (sub_id (stored_row s)) (overall_score r) status).1 in
      (db, results ++ [(sub_id (stored_row s), r)])
  | Raise _ => (db, results)
  end.

Definition batch_check_plagiarism (db : list stored) (event_id : Z)
    : list stored * list (Z * report) :=
  fold_left (check_pending event_id) (pending_submissions db event_id) (db, []).

(** ** blueprints/faculty.py: view_submissions

    The page arithmetic of the listing and the plagiarism report built
    for each submission of the page (the rendering of the page and the
    number shown as overall similarity are left out). *)

Definition per_page : Z := 6.

(** [total_pages], the clamped [page] and [offset]. *)
Definition paginate (total page : Z) : Z * Z * Z :=
  let total_pages := Z.max 1 ((total + per_page - 1) / per_page) in
  let page := Z.max 1 (Z.min page total_pages) in
  let offset := ((page - 1) * per_page)%Z in
  (total_pages, page, offset).

(** An element of [all_data]. *)
Record peer : Type := mkPeer {
  peer_id : Z;
  peer_content : str;
  peer_username : str
}.

(** An element of [detailed_results]. *)
Record detail : Type := mkDetail {
  detail_similarity : str;
  detail_source_user : str
}.

(** [for j, result in enumerate(plagiarism_results)]. *)
Fixpoint detailed_results_loop (other_data : list peer) (j : nat)
    (plagiarism_results : list entry) (detailed_results : list detail)
    : result (list detail) :=
  match plagiarism_results with
  | [] => Ok detailed_results
  | res :: rest =>
      match other_data !! j with
      | None => Raise IndexError
      | Some sub =>
          detailed_results_loop other_data (S j) rest
            (detailed_results ++ [mkDetail (similarity res) (peer_username sub)])
      end
  end.

(** The body of [for current_sub in page_submissions], up to
    [detailed_results]. *)
Definition submission_report (cosine : list (list str) -> nat -> float)
    (all_data : list peer) (current_id : Z) (document_to_check : str)
    : result (list detail) :=
  let other_data :=
    List.filter (fun sub => negb (peer_id sub =? current_id)%Z) all_data in
  let other_documents := map peer_content other_data in
  plagiarism_results ←
    match other_documents with
    | [] => Ok []
    | _ :: _ => check_plagiarism cosine document_to_check other_documents
    end;
  match plagiarism_results with
  | [] => Ok []
  | _ :: _ => detailed_results_loop other_data 0 plagiarism_results []
  end.

(** ** Vocabulary of the statements *)

(** A string [str.lower()] leaves alone. *)
Definition lowercased (s : str) : Prop := Forall (fun c => lower_char c = c) s.

(** The first character of [s] is a blank. *)
Definition starts_blank (s : str) : bool :=
  match s with
  | [] => false
  | c :: _ => isspace c
  end.

(** The last character of [s] is a blank. *)
Definition ends_blank (s : str) : bool := starts_blank (rev s).

(** Two blanks in a row somewhere in [s]. *)
Fixpoint has_blank_run (s : str) : bool :=
  match s with
  | [] => false
  | c :: s' => (isspace c && starts_blank s') || has_blank_run s'
  end.

(** A block lying inside the slices of a region. *)
Definition inside (r : region) (m : Match) : Prop :=
  let '(alo, ahi, blo, bhi) := r in
  alo <= m_a m /\ m_a m + m_size m <= ahi /\
  blo <= m_b m /\ m_b m + m_size m <= bhi.

(** Both slices of a region have a length. *)
Definition region_wf (r : region) : Prop :=
  let '(alo, ahi, blo, bhi) := r in alo <= ahi /\ blo <= bhi.

(** The longest run a region can hold. *)
Definition capacity (r : region) : nat :=
  let '(alo, ahi, blo, bhi) := r in Nat.min (ahi - alo) (bhi - blo).

(** Bound on the turns of the work loop a region can cause. *)
Definition turns (r : region) : nat :=
  let '(alo, ahi, _, _) := r in 2 * (ahi - alo) + 1.

(** The run lengths recorded in [j2len]: at most [n] long, ending before
    [bhi], starting at or after [blo]. *)
Definition runs_ok (blo bhi n : nat) (j2len : gmap nat nat) : Prop :=
  forall j k, j2len !! j = Some k -> 1 <= k <= n /\ k + blo <= j + 1 /\ j < bhi.

(** The windows of [w] consecutive elements of a list, first to last. *)
Fixpoint windows {A} (w : nat) (l : list A) : list (list A) :=
  match l with
  | [] => []
  | _ :: l' => if w <=? length l then take w l :: windows w l' else []
  end.

(** The score an operation returns (it always returns one, see the
    [_total] lemmas). *)
Definition similarity_value (text1 text2 : str) : Q :=
  match calculate_similarity text1 text2 with Ok q => q | Raise _ => 0%Q end.

(** The same for the phrase overlap at the default phrase length. *)
Definition overlap_value (text1 text2 : str) : Q :=
  match check_phrase_overlap text1 text2 5 with Ok q => q | Raise _ => 0%Q end.

(** [m] is the maximum of [vals], and 0 when there is none. *)
Definition is_max_of (m : Q) (vals : list Q) : Prop :=
  (vals = [] /\ m == 0)%Q \/
  (Exists (fun v => v == m)%Q vals /\ Forall (fun v => v <= m)%Q vals).

(** [if v > m: m = v] over a list of values. *)
Definition running_max (m0 : Q) (vals : list Q) : Q :=
  fold_left (fun m v => if Qltb m v then v else m) vals m0.

(** The larger of the title and abstract similarities of a submission. *)
Definition larger_similarity (text : str) (s : submission) : Q :=
  Qmax (similarity_value text (sub_title s))
       (similarity_value text (sub_abstract_text s)).

(** [s] without its leading digits. *)
Fixpoint skip_digits (s : str) : str :=
  match s with
  | [] => []
  | c :: s' => if isdigit c then skip_digits s' else s
  end.

(** [s] without a leading minus sign. *)
Definition drop_minus (s : str) : str :=
  match s with
  | c :: s' => if ascii_dec c "-"%char then s' else s
  | [] => []
  end.

(** The first character of [s] is a digit. *)
Definition starts_digit (s : str) : bool :=
  match s with
  | c :: _ => isdigit c
  | [] => false
  end.

(** Recognises [-?[0-9]+\.[0-9][0-9]%]: a number with exactly two
    decimal places and a percent sign. *)
Definition two_decimals_percent (s : str) : bool :=
  let s := drop_minus s in
  starts_digit s &&
  match skip_digits s with
  | [dot; d1; d2; pct] =>
      bool_decide (dot = "."%char) && isdigit d1 && isdigit d2
      && bool_decide (pct = "%"%char)
  | _ => false
  end.




(** A word as [str.split()] yields them: not empty, without a blank. *)
Definition is_word (w : str) : Prop :=
  w <> [] /\ Forall (fun c => isspace c = false) w.

(** What the check of the pending row [p] does to the row [r]. *)
Definition apply_check (table : list submission) (event_id : Z)
    (r p : stored) : stored :=
  match generate_report table (sub_abstract_text (stored_row p)) event_id
          (Some (sub_id (stored_row p))) with
  | Ok rep =>
      if (sub_id (stored_row r) =? sub_id (stored_row p))%Z
      then mkStored (stored_row r) (Some (overall_score rep))
             (if is_suspicious rep then lit "flagged" else lit "clean")
      else r
  | Raise _ => r
  end.

(** The entry the check of the pending row [p] adds to the results. *)
Definition check_entry (table : list submission) (event_id : Z) (p : stored)
    : list (Z * report) :=
  match generate_report table (sub_abstract_text (stored_row p)) event_id
          (Some (sub_id (stored_row p))) with
  | Ok rep => [(sub_id (stored_row p), rep)]
  | Raise _ => []
  end.

(** [a[i]] is an element [find_longest_match] looks up, and [j] is one
    of its places in [b] (for [a = b = s]). *)
Definition hitb (s : str) (i j : nat) : bool :=
  match s !! i with
  | Some c => bool_decide (j ∈ b2j s c)
  | None => false
  end.

(** The length of the run of such places that ends at [(i, j)]. *)
Fixpoint run (s : str) (i j : nat) : nat :=
  if hitb s i j
  then S (match i, j with
          | S i', S j' => run s i' j'
          | _, _ => 0
          end)
  else 0.

(** * Properties *)

(** ** Sample runs of the embedding *)

Example normalize_text_ex :
  normalize_text (lit "  Hello,   World! 42 ") = lit "hello  world  42".
Proof. reflexivity. Qed.

Example extract_phrases_ex :
  extract_phrases (lit "a b  c d") 3 = [lit "a b c"; lit "b c d"].
Proof. reflexivity. Qed.

Example clean_text_ex :
  clean_text (lit " Hello,  World! 42 ") = lit " hello  world  ".
Proof. reflexivity. Qed.

Example find_longest_match_doc :
  find_longest_match (lit " abcd") (lit "abcd abcd") 0 5 0 9 = mkMatch 0 4 5.
Proof. vm_compute. reflexivity. Qed.

Example get_matching_blocks_doc :
  get_matching_blocks (lit "abxcd") (lit "abcd")
  = Ok [mkMatch 0 0 2; mkMatch 3 2 2; mkMatch 5 4 0].
Proof. vm_compute. reflexivity. Qed.

Example ratio_doc : ratio (lit "abcd") (lit "bcde") = Ok (6 # 8)%Q.
Proof. vm_compute. reflexivity. Qed.

Example tokenize_ex :
  tokenize (lit "A bc, DEF_1 g h2") = [lit "bc"; lit "def_1"; lit "h2"].
Proof. reflexivity. Qed.

Example percent_ex :
  percent 0x1.7810624dd2f1bp-1 = lit "73.45%" /\
  percent 1 = lit "100.00%" /\
  percent 0x1.47ae147ae147bp-10 = lit "0.12%" /\
  percent (-0) = lit "-0.00%".
Proof. vm_compute. repeat split. Qed.

Example check_plagiarism_ex :
  check_plagiarism (fun _ i => if i =? 0 then 0.5%float else 0.25%float)
    (lit "hello world") [lit "hello there"; lit "good bye"]
  = Ok [mkEntry (lit "hello there") (lit "50.00%");
        mkEntry (lit "good bye") (lit "25.00%")].
Proof. vm_compute. reflexivity. Qed.

(** ** Character classes *)

Ltac all_chars c := destruct c as [[] [] [] [] [] [] [] []]; vm_compute; reflexivity.

Lemma lower_char_idem c : lower_char (lower_char c) = lower_char c.
Proof. all_chars c. Qed.

Lemma isdigit_lower_char c : isdigit (lower_char c) = isdigit c.
Proof. all_chars c. Qed.

Lemma ispunct_lower_char c : ispunct (lower_char c) = ispunct c.
Proof. all_chars c. Qed.

Lemma isspace_lower_char c : isspace (lower_char c) = isspace c.
Proof. all_chars c. Qed.

Lemma isword_lower_char c : isword (lower_char c) = isword c.
Proof. all_chars c. Qed.

Lemma isword_not_space c : isword c = true -> isspace c = false.
Proof. revert c. intros [[] [] [] [] [] [] [] []]; vm_compute; congruence. Qed.

Lemma isspace_space : isspace space = true.
Proof. reflexivity. Qed.

(** ** Normalisation *)

Lemma lowercased_str_lower s : lowercased s <-> str_lower s = s.
Proof.
  unfold lowercased, str_lower. induction s as [|c s IH]; simpl.
  - split; [reflexivity | constructor].
  - split.
    + intros H. inversion H; subst. f_equal; [assumption | apply IH; assumption].
    + intros H. injection H as Hc Hs. constructor; [assumption | apply IH; assumption].
Qed.

Lemma str_lower_lowercased s : lowercased (str_lower s).
Proof.
  unfold lowercased, str_lower. induction s; simpl; constructor; auto using lower_char_idem.
Qed.

Lemma sub_ws_runs_lowercased s : forall r, lowercased s -> lowercased (sub_ws_runs r s).
Proof.
  unfold lowercased. induction s as [|c s IH]; intros r H; simpl; [constructor|].
  inversion H; subst.
  destruct (isspace c); [destruct r|]; try constructor; auto.
Qed.

Lemma sub_nonword_lowercased s : lowercased s -> lowercased (sub_nonword s).
Proof.
  unfold lowercased, sub_nonword. induction 1 as [|c s Hc Hs IH]; simpl; constructor; auto.
  destruct (isword c || isspace c); [assumption | reflexivity].
Qed.

(** What [lstrip] removes is a run of blanks in front. *)
Lemma str_lstrip_split s :
  exists blanks, s = blanks ++ str_lstrip s /\ Forall (fun c => isspace c = true) blanks.
Proof.
  induction s as [|c s [bl [E F]]]; simpl.
  - exists []. split; [reflexivity | constructor].
  - destruct (isspace c) eqn:Hc.
    + exists (c :: bl). split; [simpl; f_equal; exact E | constructor; assumption].
    + exists []. split; [reflexivity | constructor].
Qed.

Lemma str_rstrip_split s :
  exists blanks, s = str_rstrip s ++ blanks /\ Forall (fun c => isspace c = true) blanks.
Proof.
  unfold str_rstrip. destruct (str_lstrip_split (rev s)) as [bl [E F]].
  exists (rev bl). split.
  - rewrite <- rev_app_distr, <- E, rev_involutive. reflexivity.
  - apply Forall_rev. exact F.
Qed.

Lemma str_lstrip_starts s : starts_blank (str_lstrip s) = false.
Proof.
  induction s as [|c s IH]; simpl; [reflexivity|].
  destruct (isspace c) eqn:Hc; [exact IH | simpl; exact Hc].
Qed.

Lemma str_rstrip_ends s : ends_blank (str_rstrip s) = false.
Proof.
  unfold ends_blank, str_rstrip. rewrite rev_involutive. apply str_lstrip_starts.
Qed.

Lemma str_rstrip_starts s : starts_blank s = false -> starts_blank (str_rstrip s) = false.
Proof.
  intros H. destruct (str_rstrip_split s) as [bl [E _]].
  destruct (str_rstrip s) as [|c r]; [reflexivity|].
  rewrite E in H. exact H.
Qed.

Lemma str_strip_starts s : starts_blank (str_strip s) = false.
Proof. apply str_rstrip_starts, str_lstrip_starts. Qed.

Lemma str_strip_ends s : ends_blank (str_strip s) = false.
Proof. apply str_rstrip_ends. Qed.

Lemma str_lstrip_Forall (P : ascii -> Prop) s : Forall P s -> Forall P (str_lstrip s).
Proof.
  induction 1 as [|c s Hc Hs IH]; simpl; [constructor|].
  destruct (isspace c); [exact IH | constructor; assumption].
Qed.

Lemma str_strip_Forall (P : ascii -> Prop) s : Forall P s -> Forall P (str_strip s).
Proof.
  intros H. unfold str_strip, str_rstrip.
  apply Forall_rev, str_lstrip_Forall, Forall_rev, str_lstrip_Forall, H.
Qed.

Lemma normalize_text_lowercased text : lowercased (normalize_text text).
Proof.
  unfold normalize_text. apply str_strip_Forall.
  apply sub_nonword_lowercased, sub_ws_runs_lowercased, str_lower_lowercased.
Qed.

(** After the first substitution the only blank left is the space. *)
Lemma sub_ws_runs_blank s : forall r,
  Forall (fun c => isspace c = true -> c = space) (sub_ws_runs r s).
Proof.
  induction s as [|c s IH]; intros r; simpl; [constructor|].
  destruct (isspace c) eqn:Hc; [destruct r|]; try constructor; auto.
  congruence.
Qed.

(** [normalize_text] leaves word characters and spaces only. *)
Lemma normalize_text_chars text :
  Forall (fun c => isword c = true \/ c = space) (normalize_text text).
Proof.
  unfold normalize_text. apply str_strip_Forall.
  unfold sub_nonword. apply Forall_map.
  eapply Forall_impl; [apply sub_ws_runs_blank|].
  intros c Hc. simpl.
  destruct (isword c) eqn:Hw; simpl; [left; exact Hw|].
  destruct (isspace c) eqn:Hs; right; auto.
Qed.

Lemma filter_lower (p : ascii -> bool) s :
  (forall c, p (lower_char c) = p c) ->
  str_lower (List.filter p s) = List.filter p (str_lower s).
Proof.
  intros Hp. unfold str_lower. induction s as [|c s IH]; simpl; [reflexivity|].
  rewrite Hp. destruct (p c); simpl; rewrite IH; reflexivity.
Qed.

Lemma filter_idem {A} (p : A -> bool) l : List.filter p (List.filter p l) = List.filter p l.
Proof.
  induction l as [|x l IH]; simpl; [reflexivity|].
  destruct (p x) eqn:Hp; simpl; rewrite ?Hp, IH; reflexivity.
Qed.

Lemma filter_comm {A} (p q : A -> bool) l :
  List.filter p (List.filter q l) = List.filter q (List.filter p l).
Proof.
  induction l as [|x l IH]; simpl; [reflexivity|].
  destruct (p x) eqn:Hp, (q x) eqn:Hq; simpl; rewrite ?Hp, ?Hq, IH; reflexivity.
Qed.

Lemma str_lower_idem s : str_lower (str_lower s) = str_lower s.
Proof. apply lowercased_str_lower, str_lower_lowercased. Qed.

(** The vector path's normaliser is idempotent. *)
Lemma clean_text_idempotent text : clean_text (clean_text text) = clean_text text.
Proof.
  unfold clean_text, delete_punctuation, sub_digits.
  rewrite !filter_lower, str_lower_idem
    by (intros c; rewrite ?isdigit_lower_char, ?ispunct_lower_char; reflexivity).
  rewrite (filter_comm (fun c => negb (isdigit c))), !filter_idem.
  reflexivity.
Qed.

Lemma filter_Forall {A} (P : A -> Prop) (p : A -> bool) l :
  Forall P l -> Forall P (List.filter p l).
Proof.
  induction 1 as [|x l Hx Hl IH]; simpl; [constructor|].
  destruct (p x); [constructor|]; assumption.
Qed.

Lemma clean_text_lowercased text : lowercased (clean_text text).
Proof.
  unfold clean_text, delete_punctuation, sub_digits.
  apply filter_Forall, filter_Forall, str_lower_lowercased.
Qed.

Lemma clean_text_no_digit text : existsb isdigit (clean_text text) = false.
Proof.
  unfold clean_text, delete_punctuation, sub_digits.
  induction (str_lower text) as [|c s IH]; simpl; [reflexivity|].
  destruct (isdigit c) eqn:Hd; simpl; [exact IH|].
  destruct (ispunct c); simpl; rewrite ?Hd; exact IH.
Qed.

Lemma clean_text_no_punctuation text : existsb ispunct (clean_text text) = false.
Proof.
  unfold clean_text, delete_punctuation, sub_digits.
  induction (str_lower text) as [|c s IH]; simpl; [reflexivity|].
  destruct (isdigit c) eqn:Hd; simpl; [exact IH|].
  destruct (ispunct c) eqn:Hp; simpl; rewrite ?Hp; exact IH.
Qed.

Lemma filter_filter_andb {A} (p q : A -> bool) l :
  List.filter p (List.filter q l) = List.filter (fun x => q x && p x) l.
Proof.
  induction l as [|x l IH]; simpl; [reflexivity|].
  destruct (q x); simpl; [destruct (p x)|]; rewrite IH; reflexivity.
Qed.

(** C3, on the code.  [normalize_text] is not idempotent: a punctuation
    mark next to a blank leaves two spaces, which the next pass merges.
    The blanks are merged before the punctuation is turned into spaces,
    and the closing [strip()] only trims the ends. *)
Theorem normalize_text_second_pass_differs :
  normalize_text (lit "a, b") = lit "a  b" /\
  normalize_text (normalize_text (lit "a, b")) = lit "a b".
Proof. split; reflexivity. Qed.

(** C4, as the specification states it, fails on both normalisers:
    [normalize_text] keeps digits, and [clean_text] neither merges
    blanks nor trims. *)
Lemma normalizers_counterexample :
  (normalize_text (lit "Team 42") = lit "team 42" /\
   existsb isdigit (normalize_text (lit "Team 42")) = true) /\
  (clean_text (lit " two  words ") = lit " two  words " /\
   has_blank_run (clean_text (lit " two  words ")) = true /\
   starts_blank (clean_text (lit " two  words ")) = true /\
   ends_blank (clean_text (lit " two  words ")) = true).
Proof. repeat split. Qed.

(** C4, amended.  For every input string: the output of [normalize_text]
    is lowercased, has no leading or trailing blank and holds only word
    characters and spaces; the output of [clean_text] is lowercased and
    holds no digit and no punctuation character, these being deleted (the
    characters kept are those of the lowercased input, in order, with
    nothing put in their place); both map the empty string to the empty
    string. *)
Theorem normalizers_output (text : str) :
  (lowercased (normalize_text text) /\
   starts_blank (normalize_text text) = false /\
   ends_blank (normalize_text text) = false /\
   Forall (fun c => isword c = true \/ c = space) (normalize_text text)) /\
  (lowercased (clean_text text) /\
   existsb isdigit (clean_text text) = false /\
   existsb ispunct (clean_text text) = false /\
   clean_text text =
     List.filter (fun c => negb (isdigit c) && negb (ispunct c)) (str_lower text)) /\
  normalize_text [] = [] /\
  clean_text [] = [].
Proof.
  split; [|split; [|split; reflexivity]].
  - split; [apply normalize_text_lowercased|].
    split; [apply str_strip_starts|].
    split; [apply str_strip_ends | apply normalize_text_chars].
  - split; [apply clean_text_lowercased|].
    split; [apply clean_text_no_digit|].
    split; [apply clean_text_no_punctuation|].
    unfold clean_text, delete_punctuation, sub_digits.
    apply filter_filter_andb.
Qed.

(** ** check_plagiarism: the guards *)

(** C1, as the specification states it, fails: with a candidate and no
    source the call returns the empty list; nothing is raised. *)
Lemma check_plagiarism_no_source_no_error :
  check_plagiarism (fun _ _ => 0%float) (lit "x") [] = Ok [] /\
  raises (check_plagiarism (fun _ _ => 0%float) (lit "x") []) = false.
Proof. split; reflexivity. Qed.

(** C1, amended.  For every candidate string, [check_plagiarism] with an
    empty sequence of sources returns the empty sequence without raising
    (the guard [len(cleaned_documents) < 2]); and for the empty candidate
    with any sources it returns the empty sequence without raising. *)
Theorem check_plagiarism_degenerate
    (cosine : list (list str) -> nat -> float)
    (user_text : str) (source_documents : list str) :
  check_plagiarism cosine user_text [] = Ok [] /\
  check_plagiarism cosine [] source_documents = Ok [].
Proof.
  split; [|reflexivity].
  destruct user_text; reflexivity.
Qed.

(** C2, on the code.  A candidate and a source made of digits only are
    both cleaned to the empty string; the vocabulary is empty and
    [fit_transform] raises [ValueError], which [check_plagiarism] lets
    through.  The same happens with punctuation only, or with words of a
    single letter. *)
Theorem check_plagiarism_digits_raise
    (cosine : list (list str) -> nat -> float) :
  check_plagiarism cosine (lit "123") [lit "456"] = Raise ValueError /\
  check_plagiarism cosine (lit "?!") [lit "..."] = Raise ValueError /\
  check_plagiarism cosine (lit "a b") [lit "c"] = Raise ValueError.
Proof. repeat split. Qed.

(** ** The sequence matcher: bounds and termination *)

Section MatcherFacts.
Variables a b : str.

Lemma runs_ok_empty blo bhi n : runs_ok blo bhi n ∅.
Proof. intros j k H. rewrite lookup_empty in H. discriminate. Qed.

Lemma scan_row_inv alo ahi blo bhi i j2len js :
  alo <= i < ahi ->
  runs_ok blo bhi (i - alo) j2len ->
  forall newj2len best,
    runs_ok blo bhi (i - alo + 1) newj2len ->
    inside (alo, ahi, blo, bhi) best ->
    runs_ok blo bhi (i - alo + 1) (scan_row i blo bhi j2len js newj2len best).1 /\
    inside (alo, ahi, blo, bhi) (scan_row i blo bhi j2len js newj2len best).2.
Proof.
  intros Hi Hold. induction js as [|j js IH]; intros new best Hnew Hbest; simpl.
  - split; assumption.
  - destruct (j <? blo) eqn:Hlo; [apply IH; assumption|].
    destruct (bhi <=? j) eqn:Hhi; [split; assumption|].
    apply Nat.ltb_ge in Hlo. apply Nat.leb_gt in Hhi.
    set (k := match j with O => 0 | S j' => default 0 (j2len !! j') end + 1).
    assert (Hk : 1 <= k <= i - alo + 1 /\ k + blo <= j + 1).
    { subst k. destruct j as [|j']; [lia|].
      destruct (j2len !! j') as [k'|] eqn:E; simpl; [|lia].
      destruct (Hold _ _ E) as (? & ? & ?). lia. }
    apply IH.
    + intros j0 k0 H0. destruct (decide (j = j0)) as [->|Hne].
      * rewrite lookup_insert_eq in H0. injection H0 as <-. lia.
      * rewrite lookup_insert_ne in H0 by assumption. apply Hnew, H0.
    + destruct (m_size best <? k); [|assumption].
      unfold inside; simpl. lia.
Qed.

Lemma scan_step_inv alo ahi blo bhi i st :
  alo <= i < ahi ->
  runs_ok blo bhi (i - alo) st.1 ->
  inside (alo, ahi, blo, bhi) st.2 ->
  runs_ok blo bhi (S i - alo) (scan_step a b blo bhi st i).1 /\
  inside (alo, ahi, blo, bhi) (scan_step a b blo bhi st i).2.
Proof.
  intros Hi Hruns Hbest. unfold scan_step.
  replace (S i - alo) with (i - alo + 1) by lia.
  destruct (a !! i) as [elt|]; simpl.
  - apply (scan_row_inv alo ahi); auto using runs_ok_empty.
  - split; [apply runs_ok_empty | assumption].
Qed.

Lemma scan_rows_inv alo ahi blo bhi n : forall i st,
  alo <= i -> i + n <= ahi ->
  runs_ok blo bhi (i - alo) st.1 ->
  inside (alo, ahi, blo, bhi) st.2 ->
  inside (alo, ahi, blo, bhi) (fold_left (scan_step a b blo bhi) (seq i n) st).2.
Proof.
  induction n as [|n IH]; intros i st Hlo Hhi Hruns Hbest; simpl; [assumption|].
  destruct (scan_step_inv alo ahi blo bhi i st) as [Hr Hb]; [lia|assumption..|].
  apply IH; [lia | lia | exact Hr | exact Hb].
Qed.

Lemma extend_left_inside pred alo ahi blo bhi besti : forall bestj bestsize,
  inside (alo, ahi, blo, bhi) (mkMatch besti bestj bestsize) ->
  inside (alo, ahi, blo, bhi) (extend_left a b pred alo blo besti bestj bestsize).
Proof.
  induction besti as [|i' IH]; intros bestj bestsize H; simpl; [assumption|].
  destruct bestj as [|j']; [assumption|].
  destruct ((alo <? S i') && (blo <? S j') && same_elt a b pred i' j') eqn:C;
    [|assumption].
  apply andb_prop in C as [C _]. apply andb_prop in C as [C1 C2].
  apply Nat.ltb_lt in C1, C2.
  apply IH. unfold inside in *; simpl in *. lia.
Qed.

Lemma extend_right_inside pred alo ahi blo bhi n : forall besti bestj bestsize,
  inside (alo, ahi, blo, bhi) (mkMatch besti bestj bestsize) ->
  inside (alo, ahi, blo, bhi) (extend_right a b pred ahi bhi n besti bestj bestsize).
Proof.
  induction n as [|n IH]; intros besti bestj bestsize H; simpl; [assumption|].
  destruct ((besti + bestsize <? ahi) && (bestj + bestsize <? bhi)
            && same_elt a b pred (besti + bestsize) (bestj + bestsize)) eqn:C;
    [|assumption].
  apply andb_prop in C as [C _]. apply andb_prop in C as [C1 C2].
  apply Nat.ltb_lt in C1, C2.
  apply IH. unfold inside in *; simpl in *. lia.
Qed.

(** The bound on the turns of the right-hand loop is exact: when it is
    used up the loop condition is false. *)
Lemma extend_right_stops pred ahi bhi n : forall besti bestj bestsize,
  ahi - (besti + bestsize) <= n ->
  let m := extend_right a b pred ahi bhi n besti bestj bestsize in
  (m_a m + m_size m <? ahi) && (m_b m + m_size m <? bhi)
  && same_elt a b pred (m_a m + m_size m) (m_b m + m_size m) = false.
Proof.
  induction n as [|n IH]; intros besti bestj bestsize Hn; simpl.
  - replace (besti + bestsize <? ahi) with false; [reflexivity|].
    symmetry. apply Nat.ltb_ge. lia.
  - destruct ((besti + bestsize <? ahi) && (bestj + bestsize <? bhi)
              && same_elt a b pred (besti + bestsize) (bestj + bestsize)) eqn:C.
    + apply IH. lia.
    + simpl. exact C.
Qed.

Lemma extend_inside pred alo ahi blo bhi m :
  inside (alo, ahi, blo, bhi) m ->
  inside (alo, ahi, blo, bhi) (extend a b pred alo ahi blo bhi m).
Proof.
  intros H. unfold extend.
  apply extend_right_inside.
  assert (H' : inside (alo, ahi, blo, bhi)
                 (extend_left a b pred alo blo (m_a m) (m_b m) (m_size m)))
    by (apply extend_left_inside; destruct m; exact H).
  destruct (extend_left a b pred alo blo (m_a m) (m_b m) (m_size m)).
  exact H'.
Qed.

(** [find_longest_match] answers with a block of the region it is given. *)
Lemma find_longest_match_inside alo ahi blo bhi :
  region_wf (alo, ahi, blo, bhi) ->
  inside (alo, ahi, blo, bhi) (find_longest_match a b alo ahi blo bhi).
Proof.
  intros [Ha Hb]. unfold find_longest_match.
  apply extend_inside, extend_inside.
  apply scan_rows_inv; simpl; try lia.
  apply runs_ok_empty.
Qed.
End MatcherFacts.

Section RatioFacts.
Variables a b : str.

(** The work loop ends within its bound, and the blocks it gathers fit in
    the regions it was given. *)
Lemma blocks_loop_total fuel : forall queue acc,
  Forall region_wf queue ->
  sum_list_with turns queue <= fuel ->
  exists blocks,
    blocks_loop a b fuel queue acc = Ok blocks /\
    sum_list_with m_size blocks
    <= sum_list_with m_size acc + sum_list_with capacity queue.
Proof.
  induction fuel as [|fuel IH]; intros queue acc Hwf Hfuel.
  - destruct queue as [|[[[alo ahi] blo] bhi] queue]; simpl in *; [|lia].
    exists acc. split; [reflexivity | lia].
  - destruct queue as [|[[[alo ahi] blo] bhi] queue]; simpl in *.
    { exists acc. split; [reflexivity | lia]. }
    inversion Hwf as [|r q Hr Hq]; subst.
    pose proof (find_longest_match_inside a b alo ahi blo bhi Hr) as Hin.
    destruct Hr as [Ha Hb].
    set (x := find_longest_match a b alo ahi blo bhi) in *.
    unfold inside in Hin. destruct Hin as (I1 & I2 & I3 & I4).
    destruct (m_size x =? 0) eqn:Hk.
    + destruct (IH queue acc Hq) as (bl & E & S); [lia|].
      exists bl. split; [exact E | lia].
    + apply Nat.eqb_neq in Hk.
      destruct ((alo <? m_a x) && (blo <? m_b x)) eqn:C1;
      destruct ((m_a x + m_size x <? ahi) && (m_b x + m_size x <? bhi)) eqn:C2;
      match goal with
      | |- context [blocks_loop a b fuel ?q ?acc'] =>
          destruct (IH q acc') as (bl & E & S);
          [ repeat (constructor; [simpl; lia|]); exact Hq
          | simpl; lia
          | exists bl; split; [exact E|];
            rewrite sum_list_with_app in S; simpl in S; simpl; lia ]
      end.
Qed.

Lemma collapse_sum blocks : forall i1 j1 k1 acc,
  sum_list_with m_size (collapse i1 j1 k1 blocks acc)
  = sum_list_with m_size acc + k1 + sum_list_with m_size blocks.
Proof.
  induction blocks as [|x rest IH]; intros i1 j1 k1 acc; simpl.
  - destruct (k1 =? 0) eqn:Hk.
    + apply Nat.eqb_eq in Hk. lia.
    + rewrite sum_list_with_app. simpl. lia.
  - destruct ((i1 + k1 =? m_a x) && (j1 + k1 =? m_b x)).
    + rewrite IH. lia.
    + rewrite IH. destruct (k1 =? 0) eqn:Hk.
      * apply Nat.eqb_eq in Hk. lia.
      * rewrite sum_list_with_app. simpl. lia.
Qed.

(** [get_matching_blocks] returns, and the sizes of its blocks add up to
    no more than the shorter sequence. *)
Lemma get_matching_blocks_total :
  exists blocks,
    get_matching_blocks a b = Ok blocks /\
    sum_list_with m_size blocks <= Nat.min (length a) (length b).
Proof.
  unfold get_matching_blocks.
  destruct (blocks_loop_total (2 * length a + 1)
              [(0, length a, 0, length b)] []) as (bl & E & S).
  - constructor; [simpl; lia | constructor].
  - simpl. lia.
  - rewrite E. simpl. eexists. split; [reflexivity|].
    rewrite sum_list_with_app, collapse_sum. simpl.
    rewrite (merge_sort_Permutation match_le bl).
    simpl in S. lia.
Qed.

Lemma truediv_in_unit (n d : Z) :
  (0 <= n <= d)%Z -> (0 < d)%Z ->
  exists q, truediv n d = Ok q /\ (0 <= q <= 1)%Q.
Proof.
  intros Hn Hd. unfold truediv.
  destruct (d =? 0)%Z eqn:E; [apply Z.eqb_eq in E; lia|].
  eexists. split; [reflexivity|].
  assert (Hd' : (0 < inject_Z d)%Q) by (unfold Qlt; simpl; lia).
  split.
  - apply Qle_shift_div_l; [exact Hd'|].
    unfold Qle; simpl. lia.
  - apply Qle_shift_div_r; [exact Hd'|].
    unfold Qle; simpl. lia.
Qed.

(** [ratio()] returns a score between 0 and 1. *)
Lemma ratio_total : exists q, ratio a b = Ok q /\ (0 <= q <= 1)%Q.
Proof.
  unfold ratio. destruct get_matching_blocks_total as (bl & E & S).
  rewrite E. simpl. unfold _calculate_ratio.
  destruct (length a + length b =? 0) eqn:H0.
  - exists 1%Q. split; [reflexivity|]. split; discriminate.
  - apply Nat.eqb_neq in H0. apply truediv_in_unit; lia.
Qed.
End RatioFacts.

(** ** Sequence similarity and the order of its arguments *)

Lemma calculate_similarity_total text1 text2 :
  exists q, calculate_similarity text1 text2 = Ok q /\ (0 <= q <= 1)%Q.
Proof. apply ratio_total. Qed.

Lemma scan_rows_nil_r a blo bhi l : forall st,
  (fold_left (scan_step a [] blo bhi) l st).2 = st.2.
Proof.
  induction l as [|i l IH]; intros st; simpl; [reflexivity|].
  rewrite IH. unfold scan_step. destruct (a !! i); reflexivity.
Qed.

Lemma extend_left_nil_r a pred alo besti bestsize :
  extend_left a [] pred alo 0 besti 0 bestsize = mkMatch besti 0 bestsize.
Proof. destruct besti; reflexivity. Qed.

Lemma extend_right_nil_r a pred ahi n besti bestsize :
  extend_right a [] pred ahi 0 n besti 0 bestsize = mkMatch besti 0 bestsize.
Proof.
  destruct n; simpl; [reflexivity|].
  rewrite andb_false_r. reflexivity.
Qed.

Lemma find_longest_match_nil_r a alo ahi :
  find_longest_match a [] alo ahi 0 0 = mkMatch alo 0 0.
Proof.
  unfold find_longest_match. rewrite scan_rows_nil_r. simpl.
  unfold extend. simpl.
  rewrite !extend_left_nil_r. simpl. rewrite !extend_right_nil_r. simpl.
  rewrite !extend_left_nil_r. simpl. rewrite !extend_right_nil_r. reflexivity.
Qed.

Lemma blocks_loop_done a b fuel acc : blocks_loop a b fuel [] acc = Ok acc.
Proof. destruct fuel; reflexivity. Qed.

Lemma ratio_nil_r a : ratio a [] = _calculate_ratio 0 (length a).
Proof.
  unfold ratio, get_matching_blocks.
  replace (2 * length a + 1) with (S (2 * length a)) by lia.
  simpl. rewrite find_longest_match_nil_r. simpl.
  rewrite blocks_loop_done. simpl.
  rewrite Nat.add_0_r. reflexivity.
Qed.

Lemma ratio_nil_l b : ratio [] b = _calculate_ratio 0 (length b).
Proof. reflexivity. Qed.

(** C5, as the specification states it, fails: the longest-block search
    of [SequenceMatcher] depends on which text comes first. *)
Lemma calculate_similarity_order_matters :
  calculate_similarity (lit "tide") (lit "diet") = Ok (2 # 8)%Q /\
  calculate_similarity (lit "diet") (lit "tide") = Ok (4 # 8)%Q /\
  Qeq_bool (2 # 8) (4 # 8) = false.
Proof. vm_compute. repeat split. Qed.

(** C5, amended.  Sequence similarity depends on the order of its
    arguments in general; the two orders give the same score whenever one
    of the normalized texts is empty or both texts normalize to the same
    string. *)
Theorem calculate_similarity_symmetric_cases (A B : str) :
  normalize_text A = [] \/ normalize_text B = [] \/
  normalize_text A = normalize_text B ->
  calculate_similarity A B = calculate_similarity B A.
Proof.
  unfold calculate_similarity. intros [H|[H|H]].
  - rewrite H, ratio_nil_r, ratio_nil_l. reflexivity.
  - rewrite H, ratio_nil_r, ratio_nil_l. reflexivity.
  - rewrite H. reflexivity.
Qed.

Lemma calculate_similarity_symmetric_cases_witness :
  calculate_similarity (lit "?!") (lit "Some text")
  = calculate_similarity (lit "Some text") (lit "?!").
Proof.
  apply (calculate_similarity_symmetric_cases (lit "?!") (lit "Some text")).
  left. reflexivity.
Defined.

(** ** Phrase overlap *)

Lemma extract_phrases_length text w :
  length (extract_phrases text w)
  = Z.to_nat (Z.of_nat (length (str_split text)) - w + 1).
Proof. unfold extract_phrases. rewrite length_map, length_seq. reflexivity. Qed.

Lemma py_slice_window {A} (l : list A) (i : nat) (w : Z) :
  (0 < w)%Z -> (Z.of_nat i + w <= Z.of_nat (length l))%Z ->
  py_slice l (Z.of_nat i) (Z.of_nat i + w) = take (Z.to_nat w) (drop i l).
Proof.
  intros Hw Hi. unfold py_slice, slice_bound.
  destruct (Z.of_nat i <? 0)%Z eqn:E1; [apply Z.ltb_lt in E1; lia|].
  destruct (Z.of_nat i + w <? 0)%Z eqn:E2; [apply Z.ltb_lt in E2; lia|].
  rewrite !Z.min_l by lia.
  replace (Z.of_nat i + w - Z.of_nat i)%Z with w by lia.
  rewrite Nat2Z.id. reflexivity.
Qed.

Lemma windows_seq {A} (w : nat) (l : list A) :
  0 < w ->
  windows w l = map (fun i => take w (drop i l)) (seq 0 (length l + 1 - w)).
Proof.
  intros Hw. induction l as [|x l IH].
  - simpl. replace (1 - w) with 0 by lia. reflexivity.
  - cbn [windows]. destruct (w <=? length (x :: l)) eqn:E.
    + apply Nat.leb_le in E. simpl in E.
      replace (length (x :: l) + 1 - w) with (S (length l + 1 - w))
        by (simpl; lia).
      rewrite <- cons_seq, <- seq_shift. cbn [map drop].
      rewrite IH, map_map. reflexivity.
    + apply Nat.leb_gt in E. simpl in E.
      replace (length (x :: l) + 1 - w) with 0 by (simpl; lia). reflexivity.
Qed.

(** For a positive length the phrases are the joined word windows. *)
Lemma extract_phrases_windows text w :
  (0 < w)%Z ->
  extract_phrases text w
  = map (str_join [space]) (windows (Z.to_nat w) (str_split text)).
Proof.
  intros Hw. unfold extract_phrases.
  rewrite windows_seq by lia. rewrite map_map.
  replace (Z.to_nat (Z.of_nat (length (str_split text)) - w + 1))
    with (length (str_split text) + 1 - Z.to_nat w) by lia.
  apply map_ext_in. intros i Hi. apply in_seq in Hi.
  rewrite py_slice_window by lia. reflexivity.
Qed.

Lemma list_to_set_empty_iff (l : list str) :
  list_to_set l = (∅ : gset str) <-> l = [].
Proof.
  split; [|intros ->; reflexivity].
  destruct l as [|x l]; [reflexivity|]. intros H.
  assert (Hx : x ∈ (list_to_set (x :: l) : gset str))
    by (apply elem_of_list_to_set; left).
  rewrite H in Hx. apply not_elem_of_empty in Hx. contradiction.
Qed.

(** A text has no phrase exactly when it has fewer words than the
    phrase length. *)
Lemma phrase_set_empty_iff text w :
  phrase_set text w = ∅
  <-> (Z.of_nat (length (str_split (normalize_text text))) <? w)%Z = true.
Proof.
  unfold phrase_set. rewrite list_to_set_empty_iff, Z.ltb_lt.
  pose proof (extract_phrases_length (normalize_text text) w) as L.
  split.
  - intros H. rewrite H in L. simpl in L. lia.
  - intros H. destruct (extract_phrases (normalize_text text) w); [reflexivity|].
    simpl in L. lia.
Qed.

Lemma gset_size_pos (X : gset str) : X <> ∅ -> 0 < size X.
Proof.
  intros H. destruct (size X) eqn:E; [|lia].
  apply size_empty_iff in E. apply leibniz_equiv in E. contradiction.
Qed.

(** C6.  For all texts and every phrase length [w]: a text whose
    normalized form has fewer than [w] words has an empty phrase set, and
    then the overlap is exactly 0; otherwise the overlap is the size of
    the intersection of the two phrase sets divided by the smaller of
    their sizes.  For a positive [w] the phrase sets are the (joined)
    windows of [w] consecutive words. *)
Theorem check_phrase_overlap_spec (A B : str) (w : Z) :
  let words1 := str_split (normalize_text A) in
  let words2 := str_split (normalize_text B) in
  let phrases1 := phrase_set A w in
  let phrases2 := phrase_set B w in
  let short1 := (Z.of_nat (length words1) <? w)%Z in
  let short2 := (Z.of_nat (length words2) <? w)%Z in
  (phrases1 = ∅ <-> short1 = true) /\
  (phrases2 = ∅ <-> short2 = true) /\
  ((0 < w)%Z ->
   phrases1 = list_to_set (map (str_join [space]) (windows (Z.to_nat w) words1)) /\
   phrases2 = list_to_set (map (str_join [space]) (windows (Z.to_nat w) words2))) /\
  check_phrase_overlap A B w =
    (if short1 || short2 then Ok 0%Q
     else Ok (inject_Z (Z.of_nat (size (phrases1 ∩ phrases2)))
              / inject_Z (Z.of_nat (Nat.min (size phrases1) (size phrases2))))%Q) /\
  (short1 || short2 = false -> 0 < Nat.min (size phrases1) (size phrases2)).
Proof.
  intros words1 words2 phrases1 phrases2 short1 short2.
  pose proof (phrase_set_empty_iff A w) as E1.
  pose proof (phrase_set_empty_iff B w) as E2.
  fold phrases1 words1 short1 in E1. fold phrases2 words2 short2 in E2.
  assert (Hpos : short1 || short2 = false ->
                 0 < Nat.min (size phrases1) (size phrases2)).
  { intros H. apply orb_false_elim in H as [H1 H2].
    assert (phrases1 <> ∅) by (rewrite E1; congruence).
    assert (phrases2 <> ∅) by (rewrite E2; congruence).
    apply Nat.min_glb_lt; apply gset_size_pos; assumption. }
  split; [exact E1|]. split; [exact E2|]. split; [|split; [|exact Hpos]].
  - intros Hw. unfold phrases1, phrases2, phrase_set, words1, words2.
    rewrite !extract_phrases_windows by exact Hw. split; reflexivity.
  - unfold check_phrase_overlap. fold phrases1 phrases2.
    destruct short1 eqn:S1.
    + rewrite bool_decide_eq_true_2 by (apply E1; reflexivity). reflexivity.
    + rewrite bool_decide_eq_false_2 by (rewrite E1; congruence).
      destruct short2 eqn:S2; simpl.
      * rewrite bool_decide_eq_true_2 by (apply E2; reflexivity). reflexivity.
      * rewrite bool_decide_eq_false_2 by (rewrite E2; congruence).
        unfold truediv.
        destruct (Z.of_nat (Nat.min (size phrases1) (size phrases2)) =? 0)%Z eqn:Z0;
          [|reflexivity].
        apply Z.eqb_eq in Z0. specialize (Hpos eq_refl). lia.
Qed.

Lemma check_phrase_overlap_total text1 text2 w :
  exists q, check_phrase_overlap text1 text2 w = Ok q /\ (0 <= q <= 1)%Q.
Proof.
  unfold check_phrase_overlap.
  set (p1 := phrase_set text1 w). set (p2 := phrase_set text2 w).
  destruct (bool_decide (p1 = ∅)) eqn:D1; simpl.
  { exists 0%Q. split; [reflexivity|]. split; discriminate. }
  destruct (bool_decide (p2 = ∅)) eqn:D2; simpl.
  { exists 0%Q. split; [reflexivity|]. split; discriminate. }
  apply bool_decide_eq_false in D1, D2.
  apply gset_size_pos in D1, D2.
  pose proof (subseteq_size _ _ (intersection_subseteq_l p1 p2)).
  pose proof (subseteq_size _ _ (intersection_subseteq_r p1 p2)).
  apply truediv_in_unit; lia.
Qed.

Lemma filter_length_le {A} (p : A -> bool) l : length (List.filter p l) <= length l.
Proof. induction l as [|x l IH]; simpl; [lia|]. destruct (p x); simpl; lia. Qed.

Lemma check_common_phrases_total text :
  exists q, check_common_phrases text = Ok q /\ (0 <= q <= 1)%Q.
Proof.
  unfold check_common_phrases. apply truediv_in_unit.
  - pose proof (filter_length_le (str_contains (normalize_text text)) common_phrases).
    lia.
  - simpl. lia.
Qed.

(** ** The risk report *)

Lemma Qltb_lt x y : Qltb x y = true <-> (x < y)%Q.
Proof.
  unfold Qltb. rewrite negb_true_iff. split.
  - intros H. apply Qnot_le_lt. intros L. apply Qle_bool_iff in L. congruence.
  - intros H. destruct (Qle_bool y x) eqn:E; [|reflexivity].
    apply Qle_bool_iff in E. apply Qlt_not_le in H. contradiction.
Qed.

Lemma Qltb_ge x y : Qltb x y = false <-> (y <= x)%Q.
Proof.
  unfold Qltb. rewrite negb_false_iff. apply Qle_bool_iff.
Qed.

Lemma py_max_Qmax x y : py_max x y = Qmax x y.
Proof.
  unfold py_max. destruct (Qltb x y) eqn:E.
  - apply Qltb_lt in E. unfold Qmax, GenericMinMax.gmax.
    unfold Qlt in E. unfold Qcompare. rewrite (proj2 (Z.compare_lt_iff _ _) E).
    reflexivity.
  - apply Qltb_ge in E. unfold Qmax, GenericMinMax.gmax.
    unfold Qle in E. unfold Qcompare.
    destruct (Z.compare_spec (Qnum x * QDen y) (Qnum y * QDen x)); try reflexivity.
    lia.
Qed.

Lemma running_max_spec vals : forall m0,
  (m0 <= running_max m0 vals)%Q /\
  Forall (fun v => v <= running_max m0 vals)%Q vals /\
  (running_max m0 vals = m0 \/ Exists (fun v => v == running_max m0 vals)%Q vals).
Proof.
  unfold running_max.
  induction vals as [|v vals IH]; intros m0; simpl.
  - split; [apply Qle_refl|]. split; [constructor | left; reflexivity].
  - destruct (Qltb m0 v) eqn:E.
    + destruct (IH v) as (L & F & X). apply Qltb_lt in E.
      split; [eapply Qle_trans; [apply Qlt_le_weak, E | exact L]|].
      split; [constructor; assumption|].
      right. destruct X as [X|X].
      * left. rewrite X. reflexivity.
      * right. exact X.
    + destruct (IH m0) as (L & F & X). apply Qltb_ge in E.
      split; [exact L|].
      split; [constructor; [eapply Qle_trans; eassumption | exact F]|].
      destruct X as [X|X]; [left; exact X | right; right; exact X].
Qed.

Lemma running_max_is_max vals :
  Forall (fun v => 0 <= v)%Q vals -> is_max_of (running_max 0 vals) vals.
Proof.
  intros Hpos. destruct (running_max_spec vals 0%Q) as (L & F & X).
  destruct vals as [|v vals]; [left; split; reflexivity|].
  right. split; [|exact F].
  destruct X as [X|X]; [|exact X].
  left. rewrite X in *. inversion Hpos; subst. inversion F; subst.
  apply Qle_antisym; assumption.
Qed.

Lemma calculate_similarity_value text1 text2 :
  calculate_similarity text1 text2 = Ok (similarity_value text1 text2) /\
  (0 <= similarity_value text1 text2 <= 1)%Q.
Proof.
  unfold similarity_value.
  destruct (calculate_similarity_total text1 text2) as (q & E & B).
  rewrite E. split; [reflexivity | exact B].
Qed.

Lemma check_phrase_overlap_value text1 text2 :
  check_phrase_overlap text1 text2 5 = Ok (overlap_value text1 text2) /\
  (0 <= overlap_value text1 text2 <= 1)%Q.
Proof.
  unfold overlap_value.
  destruct (check_phrase_overlap_total text1 text2 5) as (q & E & B).
  rewrite E. split; [reflexivity | exact B].
Qed.

(** The loop over the submissions returns, with the running maxima of
    the two series of scores. *)
Lemma scan_submissions_spec text submissions : forall st,
  exists st',
    scan_submissions text submissions st = Ok st' /\
    max_similarity st'
    = running_max (max_similarity st) (map (larger_similarity text) submissions) /\
    max_phrase_overlap st'
    = running_max (max_phrase_overlap st)
        (map (fun s => overlap_value text (sub_abstract_text s)) submissions).
Proof.
  induction submissions as [|s rest IH]; intros st; simpl.
  - exists st. repeat split.
  - unfold scan_submission.
    rewrite (proj1 (calculate_similarity_value text (sub_title s))).
    rewrite (proj1 (calculate_similarity_value text (sub_abstract_text s))).
    rewrite (proj1 (check_phrase_overlap_value text (sub_abstract_text s))).
    cbn [mbind result_bind]. rewrite py_max_Qmax.
    fold (larger_similarity text s).
    match goal with
    | |- context [scan_submissions text rest ?st1] =>
        destruct (IH st1) as (st' & E & M1 & M2)
    end.
    exists st'. split; [exact E|].
    unfold running_max in *. cbn [fold_left].
    rewrite M1, M2.
    destruct st as [ms mp ss]; cbn [max_similarity max_phrase_overlap].
    destruct (Qltb ms (larger_similarity text s));
      cbn [max_similarity max_phrase_overlap];
      destruct (Qltb mp (overlap_value text (sub_abstract_text s)));
      cbn [max_similarity max_phrase_overlap]; split; reflexivity.
Qed.

Lemma check_against_database_spec table text event_id exclude :
  let corpus := select_submissions table event_id exclude in
  exists db,
    check_against_database table text event_id exclude = Ok db /\
    db_similarity_score db
    = (db_text_similarity db * (7 # 10) + db_phrase_overlap db * (3 # 10))%Q /\
    db_text_similarity db
    = running_max 0 (map (larger_similarity text) corpus) /\
    db_phrase_overlap db
    = running_max 0 (map (fun s => overlap_value text (sub_abstract_text s)) corpus).
Proof.
  intros corpus. unfold check_against_database. fold corpus.
  destruct (scan_submissions_spec text corpus (mkScan 0 0 None))
    as (st & E & M1 & M2).
  rewrite E. cbn [mbind result_bind]. eexists. split; [reflexivity|].
  cbn. auto.
Qed.

Lemma generate_report_spec table text event_id exclude :
  exists db ratio,
    check_against_database table text event_id exclude = Ok db /\
    check_common_phrases text = Ok ratio /\
    let overall :=
      (0 + db_similarity_score db * (6 # 10) + ratio * (2 # 10)
       + short_text_penalty text * (2 # 10))%Q in
    generate_report table text event_id exclude
    = Ok (mkReport overall (classify overall)
            (db_similarity_score db) (db_text_similarity db)
            (db_phrase_overlap db) ratio (db_similar_submission db)
            (Qltb (5 # 10) overall)
            (_generate_recommendations overall db)).
Proof.
  destruct (check_against_database_spec table text event_id exclude)
    as (db & E & _).
  destruct (check_common_phrases_total text) as (ratio & R & _).
  exists db, ratio. split; [exact E|]. split; [exact R|].
  unfold generate_report. rewrite E, R. reflexivity.
Qed.

Lemma larger_similarity_nonneg text s : (0 <= larger_similarity text s)%Q.
Proof.
  unfold larger_similarity.
  eapply Qle_trans; [|apply Q.le_max_l].
  apply calculate_similarity_value.
Qed.




Example classify_samples :
  classify (9 # 10) = HIGH /\ classify (6 # 10) = MEDIUM /\
  classify (4 # 10) = LOW /\ classify (1 # 10) = MINIMAL /\
  classify (8 # 10) = MEDIUM /\ classify (5 # 10) = LOW /\
  classify (3 # 10) = MINIMAL.
Proof. repeat split. Qed.

(** ** The entries of check_plagiarism *)

Lemma string_of_uint_digits (d : Decimal.uint) :
  Forall (fun c => isdigit c = true)
    (list_ascii_of_string (NilEmpty.string_of_uint d)).
Proof. induction d; simpl; constructor; auto. Qed.

Lemma str_of_N_digits (n : N) :
  Forall (fun c => isdigit c = true) (str_of_N n) /\ starts_digit (str_of_N n) = true.
Proof.
  unfold str_of_N, NilZero.string_of_uint.
  destruct (N.to_uint n) eqn:E;
    try (split; [apply (string_of_uint_digits (_ _)) | reflexivity]).
  split; [repeat constructor | reflexivity].
Qed.

Lemma digit_isdigit (d : N) : (d < 10)%N -> isdigit (digit d) = true.
Proof.
  intros H.
  assert (C : d = 0%N \/ d = 1%N \/ d = 2%N \/ d = 3%N \/ d = 4%N \/ d = 5%N \/
              d = 6%N \/ d = 7%N \/ d = 8%N \/ d = 9%N) by lia.
  repeat (destruct C as [->|C]; [reflexivity|]). subst. reflexivity.
Qed.

Lemma skip_digits_app (ds rest : str) :
  Forall (fun c => isdigit c = true) ds ->
  starts_digit rest = false ->
  skip_digits (ds ++ rest) = rest.
Proof.
  intros F R. induction F as [|c ds Hc F IH]; simpl.
  - destruct rest as [|c rest]; [reflexivity|]. simpl in R. simpl. rewrite R. reflexivity.
  - rewrite Hc. exact IH.
Qed.

Lemma fixed2_two_decimals (negative : bool) (n : N) :
  two_decimals_percent (fixed2 negative n ++ ["%"%char]) = true.
Proof.
  destruct (str_of_N_digits (n / 100)) as [F S].
  assert (D1 : isdigit (digit (n mod 100 / 10)) = true).
  { apply digit_isdigit. apply N.Div0.div_lt_upper_bound.
    change (10 * 10)%N with 100%N. apply N.mod_lt. discriminate. }
  assert (D2 : isdigit (digit (n mod 10)) = true)
    by (apply digit_isdigit, N.mod_lt; discriminate).
  set (tail := ["."%char; digit (n mod 100 / 10); digit (n mod 10); "%"%char]).
  assert (E : fixed2 negative n ++ ["%"%char]
              = (if negative then ["-"%char] else []) ++ str_of_N (n / 100) ++ tail).
  { unfold fixed2, tail. rewrite <- !app_assoc. reflexivity. }
  rewrite E. clear E.
  assert (Hd : drop_minus ((if negative then ["-"%char] else [])
                           ++ str_of_N (n / 100) ++ tail)
               = str_of_N (n / 100) ++ tail).
  { destruct negative; [reflexivity|]. simpl.
    destruct (str_of_N (n / 100)) as [|c r] eqn:Es; [discriminate S|].
    simpl. destruct (ascii_dec c "-"%char) as [->|]; [discriminate S | reflexivity]. }
  unfold two_decimals_percent. rewrite Hd.
  rewrite skip_digits_app by (exact F || reflexivity).
  replace (starts_digit (str_of_N (n / 100) ++ tail)) with true
    by (destruct (str_of_N (n / 100)); [discriminate S | symmetry; exact S]).
  unfold tail. rewrite D1, D2. reflexivity.
Qed.

(** The rendering has two decimal places exactly when the product is a
    finite double. *)
Lemma percent_two_decimals (score : float) :
  two_decimals_percent (percent score) = is_finite (score * 100)%float.
Proof.
  unfold percent, format_2f, is_finite.
  destruct (Prim2SF (score * 100)%float) as [s|s| |s m e].
  - apply fixed2_two_decimals.
  - destruct s; reflexivity.
  - reflexivity.
  - apply fixed2_two_decimals.
Qed.

Lemma collect_results_spec source_documents scores : forall i results,
  i + length scores = length source_documents ->
  collect_results source_documents i scores results
  = Ok (results ++ zip_with (fun doc score => mkEntry doc (percent score))
                            (drop i source_documents) scores).
Proof.
  induction scores as [|score scores IH]; intros i results H; simpl.
  - rewrite zip_with_nil_r, app_nil_r. reflexivity.
  - simpl in H.
    destruct (source_documents !! i) as [doc|] eqn:E.
    + rewrite IH by lia. rewrite (drop_S _ _ _ E). simpl.
      rewrite <- app_assoc. reflexivity.
    + apply lookup_ge_None in E. lia.
Qed.

Lemma zip_entries_lookup (f : nat -> float) (docs : list str) : forall k i doc,
  docs !! i = Some doc ->
  zip_with (fun doc score => mkEntry doc (percent score)) docs
           (map f (seq k (length docs))) !! i
  = Some (mkEntry doc (percent (f (k + i)))).
Proof.
  induction docs as [|d docs IH]; intros k i doc H; [discriminate|].
  destruct i as [|i]; simpl in *.
  - injection H as ->. rewrite Nat.add_0_r. reflexivity.
  - rewrite (IH (S k) i doc H).
    replace (k + S i) with (S k + i) by lia. reflexivity.
Qed.

Lemma zip_entries_length (f : nat -> float) (docs : list str) : forall k,
  length (zip_with (fun doc score => mkEntry doc (percent score)) docs
                   (map f (seq k (length docs)))) = length docs.
Proof. induction docs as [|d docs IH]; intros k; simpl; [|rewrite IH]; reflexivity. Qed.

(** What [check_plagiarism] returns when it returns: nothing, or one
    entry per source in the order of the sources. *)
Lemma check_plagiarism_returns cosine user_text source_documents results :
  check_plagiarism cosine user_text source_documents = Ok results ->
  results = [] \/
  results = zip_with (fun doc score => mkEntry doc (percent score))
              source_documents
              (map (cosine (map tokenize (map clean_text (user_text :: source_documents))))
                   (seq 0 (length source_documents))).
Proof.
  unfold check_plagiarism. destruct user_text as [|c user_text].
  { intros [= <-]. left. reflexivity. }
  cbn [app].
  destruct (length (map clean_text _) <? 2).
  { intros [= <-]. left. reflexivity. }
  unfold fit_transform.
  destruct (forallb _ _); [discriminate|].
  cbn [mbind result_bind]. unfold cosine_similarity.
  rewrite !length_map. cbn [length].
  replace (S (length source_documents) - 1) with (length source_documents) by lia.
  rewrite collect_results_spec by (rewrite length_map, length_seq; lia).
  intros [= <-]. right. reflexivity.
Qed.

(** C10.  Whenever [check_plagiarism] returns a non-empty result, there
    is one entry per source, and the entry at index [i] holds the text of
    source [i] itself under [source] and, under [similarity], the string
    [f"{score * 100:.2f}%"] of the cosine of the candidate and source [i]:
    a percentage with exactly two decimal places (for a finite product,
    as a cosine gives), never the bare score. *)
Theorem check_plagiarism_entries
    (cosine : list (list str) -> nat -> float)
    (user_text : str) (source_documents : list str) (results : list entry) :
  check_plagiarism cosine user_text source_documents = Ok results ->
  results <> [] ->
  let rows := map tokenize (map clean_text (user_text :: source_documents)) in
  length results = length source_documents /\
  forall i doc,
    source_documents !! i = Some doc ->
    results !! i = Some (mkEntry doc (percent (cosine rows i))) /\
    two_decimals_percent (percent (cosine rows i))
    = is_finite (cosine rows i * 100)%float.
Proof.
  intros H Hne rows.
  destruct (check_plagiarism_returns _ _ _ _ H) as [->| ->]; [contradiction|].
  fold rows. split; [apply zip_entries_length|].
  intros i doc Hi. split; [|apply percent_two_decimals].
  apply (zip_entries_lookup (cosine rows) source_documents 0 i doc Hi).
Qed.

Lemma check_plagiarism_entries_witness :
  length [mkEntry (lit "hello there") (lit "50.00%")] = length [lit "hello there"] /\
  forall i doc,
    [lit "hello there"] !! i = Some doc ->
    [mkEntry (lit "hello there") (lit "50.00%")] !! i
    = Some (mkEntry doc (percent 0.5)) /\
    two_decimals_percent (percent 0.5) = is_finite (0.5 * 100)%float.
Proof.
  apply (check_plagiarism_entries (fun _ _ => 0.5%float)
           (lit "hello world") [lit "hello there"]
           [mkEntry (lit "hello there") (lit "50.00%")]).
  - vm_compute. reflexivity.
  - discriminate.
Defined.

(** ** Which operations can raise *)

(** The vector comparison raises exactly when there is a candidate, at
    least one source, and no document keeps a token of two word
    characters once cleaned; what it raises is [ValueError]. *)
Lemma check_plagiarism_raises_iff cosine user_text source_documents :
  check_plagiarism cosine user_text source_documents = Raise ValueError <->
  user_text <> [] /\ source_documents <> [] /\
  Forall (fun doc => tokenize (clean_text doc) = []) (user_text :: source_documents).
Proof.
  unfold check_plagiarism. destruct user_text as [|c user_text].
  { split; [discriminate | intros [H _]; contradiction]. }
  cbn [app]. destruct source_documents as [|doc docs].
  { split; [discriminate | intros (_ & H & _); contradiction]. }
  cbn [map length Nat.ltb Nat.leb].
  unfold fit_transform.
  destruct (forallb _ _) eqn:E.
  - split; [intros _ | reflexivity].
    split; [discriminate|]. split; [discriminate|].
    rewrite forallb_forall in E. apply Forall_forall. intros d Hd.
    apply list_elem_of_In in Hd.
    assert (Hin : In (tokenize (clean_text d))
                    (map tokenize (map clean_text ((c :: user_text) :: doc :: docs))))
      by (rewrite map_map;
          apply (in_map (fun x => tokenize (clean_text x))); exact Hd).
    apply E in Hin. apply bool_decide_eq_true in Hin. exact Hin.
  - cbn [mbind result_bind]. unfold cosine_similarity.
    rewrite collect_results_spec
      by (rewrite length_map, length_seq; cbn [length map]; rewrite !length_map; lia).
    split; [discriminate|]. intros (_ & _ & F).
    assert (forallb (fun row => bool_decide (row = []))
              (map tokenize (map clean_text ((c :: user_text) :: doc :: docs))) = true).
    { apply forallb_forall. intros row Hrow.
      rewrite map_map in Hrow. apply in_map_iff in Hrow as (d & <- & Hd).
      apply bool_decide_eq_true. rewrite Forall_forall in F.
      apply F, list_elem_of_In, Hd. }
    cbn [map] in *. congruence.
Qed.

(** The three operations of [plagiarism_checker.py] return a score for
    every pair of strings, and the score lies between 0 and 1. *)
Lemma checker_scores_total (text1 text2 : str) (w : Z) :
  (exists q, calculate_similarity text1 text2 = Ok q /\ (0 <= q <= 1)%Q) /\
  (exists q, check_phrase_overlap text1 text2 w = Ok q /\ (0 <= q <= 1)%Q) /\
  (exists q, check_common_phrases text1 = Ok q /\ (0 <= q <= 1)%Q).
Proof.
  split; [apply calculate_similarity_total|].
  split; [apply check_phrase_overlap_total | apply check_common_phrases_total].
Qed.

(** ** The second pass of normalize_text is the last one that changes
    anything *)

Lemma str_lstrip_id s : starts_blank s = false -> str_lstrip s = s.
Proof. destruct s as [|c s]; simpl; [reflexivity|]. intros ->. reflexivity. Qed.

Lemma str_strip_id s :
  starts_blank s = false -> ends_blank s = false -> str_strip s = s.
Proof.
  intros Hs He. unfold str_strip, str_rstrip.
  rewrite (str_lstrip_id s Hs), (str_lstrip_id (rev s) He).
  apply rev_involutive.
Qed.

Lemma sub_nonword_id s :
  Forall (fun c => isword c = true \/ c = space) s -> sub_nonword s = s.
Proof.
  unfold sub_nonword. induction 1 as [|c s Hc Hs IH]; simpl; [reflexivity|].
  rewrite IH. destruct Hc as [Hc| ->]; [rewrite Hc|]; reflexivity.
Qed.

Lemma ends_blank_cons c s :
  ends_blank (c :: s) = match s with [] => isspace c | _ :: _ => ends_blank s end.
Proof.
  unfold ends_blank. simpl. destruct s as [|d s]; [reflexivity|].
  simpl. destruct (rev s ++ [d]) as [|x r] eqn:E; [|reflexivity].
  destruct (rev s); discriminate.
Qed.

Lemma sub_ws_runs_chars s : forall r,
  Forall (fun c => isword c = true \/ c = space) s ->
  Forall (fun c => isword c = true \/ c = space) (sub_ws_runs r s).
Proof.
  induction s as [|c s IH]; intros r H; simpl; [constructor|].
  inversion H; subst.
  destruct (isspace c); [destruct r|]; try constructor; auto.
Qed.

Lemma sub_ws_runs_starts s :
  starts_blank s = false -> starts_blank (sub_ws_runs false s) = false.
Proof.
  destruct s as [|c s]; simpl; [reflexivity|]. intros H. rewrite H. simpl. exact H.
Qed.

Lemma sub_ws_runs_ends s : forall r,
  s <> [] -> ends_blank s = false ->
  sub_ws_runs r s <> [] /\ ends_blank (sub_ws_runs r s) = false.
Proof.
  induction s as [|c s IH]; intros r Hne He; [contradiction|].
  rewrite ends_blank_cons in He. simpl.
  destruct s as [|d s].
  - rewrite He. simpl. split; [discriminate|].
    rewrite ends_blank_cons. exact He.
  - assert (Hd : d :: s <> []) by discriminate.
    destruct (isspace c); [destruct r|].
    + apply IH; assumption.
    + destruct (IH true Hd He) as [N E]. split; [discriminate|].
      rewrite ends_blank_cons.
      destruct (sub_ws_runs true (d :: s)); [contradiction | exact E].
    + destruct (IH false Hd He) as [N E]. split; [discriminate|].
      rewrite ends_blank_cons.
      destruct (sub_ws_runs false (d :: s)); [contradiction | exact E].
Qed.

Lemma sub_ws_runs_no_run s : forall r,
  has_blank_run (sub_ws_runs r s) = false /\
  (r = true -> starts_blank (sub_ws_runs r s) = false).
Proof.
  induction s as [|c s IH]; intros r; simpl; [split; reflexivity|].
  destruct (isspace c) eqn:Hc; [destruct r|].
  - apply IH.
  - destruct (IH true) as [H1 H2]. split; [|discriminate].
    cbn [has_blank_run]. rewrite H1, (H2 eq_refl), andb_false_r. reflexivity.
  - destruct (IH false) as [H1 _]. split; [|intros _; simpl; exact Hc].
    cbn [has_blank_run]. rewrite Hc, H1. reflexivity.
Qed.

Lemma sub_ws_runs_id s : forall r,
  Forall (fun c => isword c = true \/ c = space) s ->
  has_blank_run s = false ->
  (r = true -> starts_blank s = false) ->
  sub_ws_runs r s = s.
Proof.
  induction s as [|c s IH]; intros r F H Hr; simpl; [reflexivity|].
  inversion F as [|c' s' Hc Hs]; subst. simpl in H.
  apply orb_false_elim in H as [H1 H2].
  destruct (isspace c) eqn:Ec.
  - destruct Hc as [Hc| ->]; [apply isword_not_space in Hc; congruence|].
    simpl in H1.
    destruct r; [specialize (Hr eq_refl); simpl in Hr; congruence|].
    rewrite (IH true); auto.
  - rewrite (IH false); auto. discriminate.
Qed.

Lemma normalize_text_settled s :
  lowercased s ->
  Forall (fun c => isword c = true \/ c = space) s ->
  starts_blank s = false -> ends_blank s = false ->
  normalize_text s = sub_ws_runs false s.
Proof.
  intros Hl Hc Hs He. unfold normalize_text.
  rewrite (proj1 (lowercased_str_lower s) Hl).
  rewrite sub_nonword_id by (apply sub_ws_runs_chars; exact Hc).
  apply str_strip_id.
  - apply sub_ws_runs_starts, Hs.
  - destruct s as [|c s]; [reflexivity|].
    apply sub_ws_runs_ends; [discriminate | exact He].
Qed.

(** A third pass of [normalize_text] changes nothing: the second pass
    merges the spaces the first one left. *)
Lemma normalize_text_third_pass text :
  normalize_text (normalize_text (normalize_text text))
  = normalize_text (normalize_text text).
Proof.
  set (s := normalize_text text).
  assert (E : normalize_text s = sub_ws_runs false s).
  { apply normalize_text_settled.
    - apply normalize_text_lowercased.
    - apply normalize_text_chars.
    - apply str_strip_starts.
    - apply str_strip_ends. }
  rewrite E.
  assert (Hs : starts_blank (sub_ws_runs false s) = false)
    by apply sub_ws_runs_starts, str_strip_starts.
  assert (He : ends_blank (sub_ws_runs false s) = false).
  { destruct s as [|c r] eqn:Es; [reflexivity|].
    apply sub_ws_runs_ends; [discriminate|].
    rewrite <- Es. apply str_strip_ends. }
  assert (Hc : Forall (fun c => isword c = true \/ c = space) (sub_ws_runs false s))
    by apply sub_ws_runs_chars, normalize_text_chars.
  rewrite normalize_text_settled;
    [| apply sub_ws_runs_lowercased, normalize_text_lowercased
     | exact Hc | exact Hs | exact He ].
  apply sub_ws_runs_id; [exact Hc | apply sub_ws_runs_no_run | discriminate].
Qed.

(** * Further properties of the code *)

(** ** The ranges of the report *)










Lemma scan_submissions_nil text st : scan_submissions text [] st = Ok st.
Proof. reflexivity. Qed.




(** ** The most similar submission *)


(** Either the loop leaves the best match as it was, or the best match
    it ends with is one of the submissions scanned, with the similarity
    recorded as the maximum, which is above the one the loop started
    from. *)
Lemma scan_submissions_best text submissions : forall st st',
  scan_submissions text submissions st = Ok st' ->
  (similar_submission st' = similar_submission st /\
   max_similarity st' = max_similarity st) \/
  (exists s,
     similar_submission st' = Some s /\ In s submissions /\
     max_similarity st' = larger_similarity text s /\
     (max_similarity st < larger_similarity text s)%Q).
Proof.
  induction submissions as [|s rest IH]; intros st st' H.
  - injection H as <-. left. split; reflexivity.
  - cbn [scan_submissions] in H. unfold scan_submission in H.
    rewrite (proj1 (calculate_similarity_value text (sub_title s))) in H.
    rewrite (proj1 (calculate_similarity_value text (sub_abstract_text s))) in H.
    rewrite (proj1 (check_phrase_overlap_value text (sub_abstract_text s))) in H.
    cbn [mbind result_bind] in H. rewrite py_max_Qmax in H.
    fold (larger_similarity text s) in H.
    destruct st as [ms mp ss]. cbn [max_similarity max_phrase_overlap] in *.
    destruct (Qltb ms (larger_similarity text s)) eqn:Hlt;
      cbn [max_similarity max_phrase_overlap similar_submission] in H.
    + apply Qltb_lt in Hlt.
      match type of H with scan_submissions _ _ ?st1 = _ =>
        destruct (IH st1 st' H) as [[E1 E2]|(s' & E1 & E2 & E3 & E4)];
        assert (Hs1 : similar_submission st1 = Some s /\
                      max_similarity st1 = larger_similarity text s)
          by (destruct (Qltb mp _); split; reflexivity)
      end.
      * right. exists s. destruct Hs1 as [A B].
        rewrite E1, E2, A, B. cbn. auto.
      * right. exists s'. destruct Hs1 as [A B]. rewrite B in E4.
        cbn. split; [exact E1|]. split; [right; exact E2|].
        split; [exact E3|]. eapply Qlt_trans; eassumption.
    + match type of H with scan_submissions _ _ ?st1 = _ =>
        destruct (IH st1 st' H) as [[E1 E2]|(s' & E1 & E2 & E3 & E4)];
        assert (Hs1 : similar_submission st1 = ss /\ max_similarity st1 = ms)
          by (destruct (Qltb mp _); split; reflexivity)
      end.
      * left. destruct Hs1 as [A B]. rewrite E1, E2, A, B. cbn. auto.
      * right. exists s'. destruct Hs1 as [A B]. rewrite B in E4.
        cbn. split; [exact E1|]. split; [right; exact E2|].
        split; [exact E3 | exact E4].
Qed.

Lemma check_against_database_best table text event_id exclude db :
  check_against_database table text event_id exclude = Ok db ->
  match db_similar_submission db with
  | None => db_text_similarity db = 0%Q
  | Some s =>
      In s (select_submissions table event_id exclude) /\
      db_text_similarity db = larger_similarity text s /\
      (0 < larger_similarity text s)%Q
  end.
Proof.
  unfold check_against_database. intros H.
  destruct (scan_submissions text (select_submissions table event_id exclude)
              (mkScan 0 0 None)) as [st|e] eqn:E; [|discriminate].
  cbn [mbind result_bind] in H. injection H as <-.
  cbn [db_similar_submission db_text_similarity].
  destruct (scan_submissions_best _ _ _ _ E) as [[E1 E2]|(s & E1 & E2 & E3 & E4)].
  - rewrite E1, E2. reflexivity.
  - rewrite E1. auto.
Qed.

Lemma is_max_of_zero vals :
  Forall (fun v => 0 <= v)%Q vals -> is_max_of 0 vals ->
  Forall (fun v => v == 0)%Q vals.
Proof.
  intros Hpos [[-> _]|[_ F]]; [constructor|].
  rewrite Forall_forall in *. intros v Hv.
  apply Qle_antisym; [apply F | apply Hpos]; exact Hv.
Qed.

(** X6.  The similar submission of a report is one of the submissions
    compared, and the text similarity of the report is its similarity,
    which is positive; no submission is reported exactly when every
    compared submission has similarity 0, and then the text similarity is
    0. *)
Theorem generate_report_similar_submission
    (table : list submission) (text : str) (event_id : Z) (exclude : option Z) :
  let corpus := select_submissions table event_id exclude in
  exists r,
    generate_report table text event_id exclude = Ok r /\
    match report_similar_submission r with
    | Some s =>
        In s corpus /\
        text_similarity r = larger_similarity text s /\
        (0 < larger_similarity text s)%Q
    | None =>
        text_similarity r = 0%Q /\
        Forall (fun s => larger_similarity text s == 0)%Q corpus
    end.
Proof.
  intros corpus.
  destruct (generate_report_spec table text event_id exclude)
    as (db & ratio & E & _ & G).
  pose proof (check_against_database_best _ _ _ _ _ E) as B.
  destruct (check_against_database_spec table text event_id exclude)
    as (db' & E' & _ & M1 & _).
  rewrite E in E'. injection E' as <-.
  eexists. split; [exact G|].
  cbn [report_similar_submission text_similarity].
  destruct (db_similar_submission db) as [s|]; [exact B|].
  split; [exact B|].
  assert (Hpos : Forall (fun v => 0 <= v)%Q (map (larger_similarity text) corpus))
    by (apply Forall_map, Forall_forall; intros s _; apply larger_similarity_nonneg).
  pose proof (running_max_is_max _ Hpos) as Hmax.
  fold corpus in M1. rewrite <- M1, B in Hmax.
  apply is_max_of_zero in Hmax; [|exact Hpos].
  apply Forall_map in Hmax. exact Hmax.
Qed.

Lemma select_submissions_In table event_id exclude s :
  In s (select_submissions table event_id exclude) ->
  In s table /\ sub_event_id s = event_id /\ sub_is_latest_version s = true /\
  match exclude with
  | Some x => x = 0%Z \/ sub_id s <> x
  | None => True
  end.
Proof.
  unfold select_submissions. rewrite filter_In. intros [Hin H].
  apply andb_prop in H as [H H3]. apply andb_prop in H as [H1 H2].
  apply Z.eqb_eq in H1. split; [exact Hin|]. split; [exact H1|].
  split; [exact H2|].
  destruct exclude as [x|]; [|exact I].
  destruct (x =? 0)%Z eqn:E0; [left; apply Z.eqb_eq; exact E0|].
  right. apply negb_true_iff, Z.eqb_neq in H3. exact H3.
Qed.

(** X7.  The submission whose id is passed to be excluded is never the
    one reported as similar: a submission is not compared with itself.
    (An id of 0 excludes nothing.)  The submission reported is always a
    latest version of the same event. *)
Theorem generate_report_excludes_itself
    (table : list submission) (text : str) (event_id : Z) (submission_id : Z) :
  submission_id <> 0%Z ->
  exists r,
    generate_report table text event_id (Some submission_id) = Ok r /\
    forall s,
      report_similar_submission r = Some s ->
      sub_id s <> submission_id /\ In s table /\
      sub_event_id s = event_id /\ sub_is_latest_version s = true.
Proof.
  intros Hid.
  destruct (generate_report_spec table text event_id (Some submission_id))
    as (db & ratio & E & _ & G).
  pose proof (check_against_database_best _ _ _ _ _ E) as B.
  eexists. split; [exact G|].
  cbn [report_similar_submission]. intros s Hs. rewrite Hs in B.
  destruct B as [Hin _].
  apply select_submissions_In in Hin as (H1 & H2 & H3 & [H4|H4]).
  - contradiction.
  - auto.
Qed.

Lemma generate_report_excludes_itself_witness :
  exists r,
    generate_report
      [mkSubmission 4 1 (lit "Sorting") (lit "fast sorting of lists") 9 true]
      (lit "fast sorting of lists") 1 (Some 4%Z) = Ok r /\
    forall s,
      report_similar_submission r = Some s ->
      sub_id s <> 4%Z /\
      In s [mkSubmission 4 1 (lit "Sorting") (lit "fast sorting of lists") 9 true] /\
      sub_event_id s = 1%Z /\ sub_is_latest_version s = true.
Proof.
  apply (generate_report_excludes_itself
           [mkSubmission 4 1 (lit "Sorting") (lit "fast sorting of lists") 9 true]
           (lit "fast sorting of lists") 1 4).
  lia.
Defined.

(** ** Phrases and their overlap *)

(** X8.  Phrase overlap does not depend on the order of the two texts
    (unlike sequence similarity). *)
Theorem check_phrase_overlap_symmetric (A B : str) (w : Z) :
  check_phrase_overlap A B w = check_phrase_overlap B A w.
Proof.
  unfold check_phrase_overlap.
  rewrite (orb_comm (bool_decide (phrase_set A w = ∅))).
  rewrite (intersection_comm_L (phrase_set A w)), Nat.min_comm.
  reflexivity.
Qed.

(** X9.  Against itself a text has phrase overlap 1 when it has at least
    [w] words once normalized, and 0 when it has fewer: a text of fewer
    than five words never shows any phrase overlap. *)
Theorem check_phrase_overlap_self (A : str) (w : Z) :
  exists q,
    check_phrase_overlap A A w = Ok q /\
    if (Z.of_nat (length (str_split (normalize_text A))) <? w)%Z
    then q = 0%Q else (q == 1)%Q.
Proof.
  unfold check_phrase_overlap.
  pose proof (phrase_set_empty_iff A w) as E.
  rewrite intersection_idemp_L, Nat.min_id, orb_diag.
  destruct (Z.of_nat (length (str_split (normalize_text A))) <? w)%Z.
  - rewrite bool_decide_eq_true_2 by (apply E; reflexivity).
    exists 0%Q. split; reflexivity.
  - assert (Hne : phrase_set A w <> ∅) by (rewrite E; discriminate).
    rewrite bool_decide_eq_false_2 by exact Hne.
    apply gset_size_pos in Hne. unfold truediv.
    destruct (Z.of_nat (size (phrase_set A w)) =? 0)%Z eqn:Z0;
      [apply Z.eqb_eq in Z0; lia|].
    eexists. split; [reflexivity|].
    apply Qmult_inv_r. intros H. unfold Qeq in H. simpl in H. lia.
Qed.

Lemma split_go_words s :
  Forall (fun c => isspace c = false) (split_go s).1 /\
  Forall is_word (split_go s).2.
Proof.
  induction s as [|c s [IH1 IH2]]; simpl.
  - split; constructor.
  - destruct (split_go s) as [w ws]. simpl in *.
    destruct (isspace c) eqn:Hc; simpl.
    + split; [constructor|].
      destruct w as [|d w]; simpl; [exact IH2|].
      constructor; [split; [discriminate | exact IH1] | exact IH2].
    + split; [constructor; assumption | exact IH2].
Qed.

(** [split()] yields words. *)
Lemma str_split_words s : Forall is_word (str_split s).
Proof.
  unfold str_split. pose proof (split_go_words s) as [H1 H2].
  destruct (split_go s) as [w ws]. simpl in *.
  destruct w as [|c w]; simpl; [exact H2|].
  constructor; [split; [discriminate | exact H1] | exact H2].
Qed.

Lemma split_go_app_word w rest :
  Forall (fun c => isspace c = false) w ->
  split_go (w ++ rest) = (w ++ (split_go rest).1, (split_go rest).2).
Proof.
  induction 1 as [|c w Hc Hw IH]; simpl.
  - destruct (split_go rest); reflexivity.
  - rewrite IH, Hc. reflexivity.
Qed.

Lemma split_go_join ws :
  Forall is_word ws ->
  split_go (str_join [space] ws)
  = match ws with [] => ([], []) | w :: ws' => (w, ws') end.
Proof.
  induction 1 as [|w ws [Hne Hw] Hws IH]; [reflexivity|].
  destruct ws as [|w2 ws'].
  - simpl. rewrite <- (app_nil_r w) at 1.
    rewrite (split_go_app_word w [] Hw). simpl. rewrite app_nil_r. reflexivity.
  - change (str_join [space] (w :: w2 :: ws'))
      with (w ++ [space] ++ str_join [space] (w2 :: ws')).
    rewrite (split_go_app_word w _ Hw).
    cbn [app split_go]. rewrite IH. rewrite isspace_space.
    inversion Hws as [|? ? [Hne2 _] _]; subst.
    destruct w2; [contradiction|]. simpl. rewrite app_nil_r. reflexivity.
Qed.

(** Splitting the words joined by single spaces gives the words back. *)
Lemma str_split_join ws : Forall is_word ws -> str_split (str_join [space] ws) = ws.
Proof.
  intros H. unfold str_split. rewrite (split_go_join ws H).
  destruct H as [|w ws [Hne _] _]; [reflexivity|].
  destruct w; [contradiction | reflexivity].
Qed.

Lemma Forall_take_drop {A} (P : A -> Prop) n i (l : list A) :
  Forall P l -> Forall P (take n (drop i l)).
Proof. intros H. apply Forall_take, Forall_drop, H. Qed.

(** X10.  For a positive phrase length [w], every phrase taken from a
    text splits back into exactly [w] words, and they are consecutive
    words of the text. *)
Theorem extract_phrases_round_trip (text : str) (w : Z) (phrase : str) :
  (0 < w)%Z ->
  In phrase (extract_phrases text w) ->
  length (str_split phrase) = Z.to_nat w /\
  exists i,
    i + Z.to_nat w <= length (str_split text) /\
    str_split phrase = take (Z.to_nat w) (drop i (str_split text)).
Proof.
  intros Hw Hin.
  rewrite (extract_phrases_windows text w Hw),
    (windows_seq (Z.to_nat w) (str_split text)) in Hin by lia.
  rewrite map_map in Hin. apply in_map_iff in Hin as (i & <- & Hi).
  apply in_seq in Hi.
  rewrite str_split_join by (apply Forall_take_drop, str_split_words).
  split.
  - rewrite length_take, length_drop. lia.
  - exists i. split; [lia | reflexivity].
Qed.

Lemma extract_phrases_round_trip_witness :
  length (str_split (lit "b c d")) = Z.to_nat 3 /\
  exists i,
    i + Z.to_nat 3 <= length (str_split (lit "a b  c d")) /\
    str_split (lit "b c d") = take (Z.to_nat 3) (drop i (str_split (lit "a b  c d"))).
Proof.
  apply (extract_phrases_round_trip (lit "a b  c d") 3 (lit "b c d")).
  - lia.
  - vm_compute. right. left. reflexivity.
Defined.

Lemma split_go_sub_ws_runs s :
  split_go (sub_ws_runs false s) = split_go s /\
  push_word (split_go (sub_ws_runs true s)).1 (split_go (sub_ws_runs true s)).2
  = push_word (split_go s).1 (split_go s).2.
Proof.
  induction s as [|c s [IH1 IH2]]; [split; reflexivity|].
  cbn [sub_ws_runs split_go].
  destruct (isspace c) eqn:Hc.
  - cbn [split_go]. rewrite isspace_space.
    destruct (split_go (sub_ws_runs true s)) as [w1 ws1].
    destruct (split_go s) as [w ws]. simpl in *.
    rewrite IH2. split; reflexivity.
  - cbn [split_go]. rewrite Hc, IH1.
    destruct (split_go s) as [w ws]. split; reflexivity.
Qed.

(** Merging the runs of blanks does not change the words. *)
Lemma str_split_sub_ws_runs s : str_split (sub_ws_runs false s) = str_split s.
Proof.
  unfold str_split. rewrite (proj1 (split_go_sub_ws_runs s)). reflexivity.
Qed.

Lemma str_split_normalize_text_twice text :
  str_split (normalize_text (normalize_text text)) = str_split (normalize_text text).
Proof.
  rewrite (normalize_text_settled (normalize_text text)).
  - apply str_split_sub_ws_runs.
  - apply normalize_text_lowercased.
  - apply normalize_text_chars.
  - apply str_strip_starts.
  - apply str_strip_ends.
Qed.

Lemma phrase_set_normalize_text text w :
  phrase_set (normalize_text text) w = phrase_set text w.
Proof.
  unfold phrase_set, extract_phrases.
  rewrite str_split_normalize_text_twice. reflexivity.
Qed.

(** X11.  Phrase overlap is the same on two texts and on their
    normalized forms: the double spaces [normalize_text] can leave do not
    reach the phrases, which are built from the words. *)
Theorem check_phrase_overlap_normalized (A B : str) (w : Z) :
  check_phrase_overlap (normalize_text A) (normalize_text B) w
  = check_phrase_overlap A B w.
Proof.
  unfold check_phrase_overlap. rewrite !phrase_set_normalize_text. reflexivity.
Qed.

(** ** The batch check and the stored verdicts *)

Lemma update_keeps_rows db submission_id score status :
  map stored_row (update_submission_plagiarism_score db submission_id score status).1
  = map stored_row db.
Proof.
  unfold update_submission_plagiarism_score. cbn [fst]. rewrite map_map.
  apply map_ext. intros r. destruct (_ =? _)%Z; reflexivity.
Qed.

(** The batch as a map over the table: every row goes through the checks
    of the pending rows, in their order. *)
Lemma batch_loop_spec event_id pending : forall db results,
  fold_left (check_pending event_id) pending (db, results)
  = (map (fun r => fold_left (apply_check (map stored_row db) event_id) pending r) db,
     results ++ flat_map (check_entry (map stored_row db) event_id) pending).
Proof.
  induction pending as [|p pending IH]; intros db results.
  - cbn. rewrite map_id, app_nil_r. reflexivity.
  - cbn [fold_left flat_map]. unfold check_pending at 2. cbn [fst snd].
    unfold check_entry at 1.
    destruct (generate_report (map stored_row db) _ event_id _) as [rep|e] eqn:G.
    + rewrite IH, update_keeps_rows. f_equal.
      * unfold update_submission_plagiarism_score. cbn [fst]. rewrite map_map.
        apply map_ext. intros r. unfold apply_check at 3. rewrite G. reflexivity.
      * rewrite <- app_assoc. reflexivity.
    + rewrite IH. f_equal.
      apply map_ext. intros r. unfold apply_check at 3. rewrite G. reflexivity.
Qed.

Lemma apply_check_row table event_id pending : forall r,
  stored_row (fold_left (apply_check table event_id) pending r) = stored_row r.
Proof.
  induction pending as [|p pending IH]; intros r; cbn; [reflexivity|].
  rewrite IH. unfold apply_check.
  destruct (generate_report _ _ _ _); [|reflexivity].
  destruct (_ =? _)%Z; reflexivity.
Qed.

Lemma apply_check_untouched table event_id pending : forall r,
  ~ In (sub_id (stored_row r)) (map (fun p => sub_id (stored_row p)) pending) ->
  fold_left (apply_check table event_id) pending r = r.
Proof.
  induction pending as [|p pending IH]; intros r H; cbn; [reflexivity|].
  cbn in H. unfold apply_check at 2.
  destruct (generate_report _ _ _ _).
  - destruct (Z.eqb_spec (sub_id (stored_row r)) (sub_id (stored_row p))) as [E|E].
    + exfalso. apply H. left. symmetry. exact E.
    + apply IH. tauto.
  - apply IH. tauto.
Qed.

Lemma generate_report_returns table text event_id exclude :
  exists r, generate_report table text event_id exclude = Ok r.
Proof.
  destruct (generate_report_spec table text event_id exclude) as (db & q & _ & _ & G).
  eexists. exact G.
Qed.

Lemma apply_check_touched table event_id pending : forall r,
  In (sub_id (stored_row r)) (map (fun p => sub_id (stored_row p)) pending) ->
  plagiarism_status (fold_left (apply_check table event_id) pending r) = lit "flagged" \/
  plagiarism_status (fold_left (apply_check table event_id) pending r) = lit "clean".
Proof.
  induction pending as [|p pending IH]; intros r H; [contradiction|].
  cbn [fold_left].
  set (r1 := apply_check table event_id r p).
  destruct (in_dec Z.eq_dec (sub_id (stored_row r1))
              (map (fun p => sub_id (stored_row p)) pending)) as [Hin|Hout].
  - apply IH. exact Hin.
  - rewrite (apply_check_untouched _ _ _ _ Hout).
    assert (Hid : sub_id (stored_row r1) = sub_id (stored_row r)).
    { unfold r1, apply_check. destruct (generate_report _ _ _ _); [|reflexivity].
      destruct (_ =? _)%Z; reflexivity. }
    rewrite Hid in Hout. destruct H as [H|H]; [|contradiction].
    unfold r1, apply_check.
    destruct (generate_report_returns table (sub_abstract_text (stored_row p))
                event_id (Some (sub_id (stored_row p)))) as [rep ->].
    cbn in H. rewrite H, Z.eqb_refl. cbn.
    destruct (is_suspicious rep); auto.
Qed.

Lemma filter_none {A} (p : A -> bool) l :
  (forall x, In x l -> p x = false) -> List.filter p l = [].
Proof.
  induction l as [|x l IH]; intros H; simpl; [reflexivity|].
  rewrite (H x) by (left; reflexivity). apply IH.
  intros y Hy. apply H. right. exact Hy.
Qed.

(** X12.  After a batch check no latest submission of the event is left
    pending, so a second run finds nothing to check and leaves the table
    as it is. *)
Theorem batch_check_plagiarism_settles (db : list stored) (event_id : Z) :
  pending_submissions (batch_check_plagiarism db event_id).1 event_id = [] /\
  batch_check_plagiarism (batch_check_plagiarism db event_id).1 event_id
  = ((batch_check_plagiarism db event_id).1, []).
Proof.
  assert (E : pending_submissions (batch_check_plagiarism db event_id).1 event_id = []).
  { unfold batch_check_plagiarism. rewrite batch_loop_spec. cbn [fst].
    set (pending := pending_submissions db event_id).
    set (table := map stored_row db).
    unfold pending_submissions at 1.
    apply filter_none. intros r' Hin.
    apply in_map_iff in Hin as (r0 & <- & Hin).
    rewrite apply_check_row.
    destruct (in_dec Z.eq_dec (sub_id (stored_row r0))
                (map (fun p => sub_id (stored_row p)) pending)) as [Hid|Hid].
    - destruct (apply_check_touched table event_id pending r0 Hid) as [-> | ->];
        rewrite bool_decide_eq_false_2 by discriminate;
        apply andb_false_r.
    - rewrite (apply_check_untouched _ _ _ _ Hid).
      destruct ((sub_event_id (stored_row r0) =? event_id)%Z
                && sub_is_latest_version (stored_row r0)
                && bool_decide (plagiarism_status r0 = lit "pending")) eqn:C;
        [|reflexivity].
      exfalso. apply Hid.
      apply (in_map (fun p => sub_id (stored_row p))).
      unfold pending, pending_submissions.
      apply filter_In. split; [exact Hin | exact C]. }
  split; [exact E|].
  unfold batch_check_plagiarism at 1. rewrite E. reflexivity.
Qed.

(** X13.  A batch check keeps every row in its place with its
    submission data (id, event, title, text, author, version flag)
    unchanged, and it leaves alone, scores and status included, every row
    whose id is not the id of a pending submission of the event. *)
Theorem batch_check_plagiarism_frame (db : list stored) (event_id : Z) :
  map stored_row (batch_check_plagiarism db event_id).1 = map stored_row db /\
  Forall2
    (fun r r' =>
       stored_row r' = stored_row r /\
       (~ In (sub_id (stored_row r))
            (map (fun p => sub_id (stored_row p)) (pending_submissions db event_id)) ->
        r' = r))
    db (batch_check_plagiarism db event_id).1.
Proof.
  unfold batch_check_plagiarism. rewrite batch_loop_spec. cbn [fst].
  split.
  - rewrite map_map. apply map_ext. intros r. apply apply_check_row.
  - apply Forall2_fmap_r, Forall_Forall2_diag, Forall_forall. intros r _.
    split; [apply apply_check_row | apply apply_check_untouched].
Qed.





(** ** The listing of submissions for the faculty *)

(** X15.  For a non-negative number of rows and any requested page: the
    page used lies between 1 and the number of pages, a page in that
    range is used as requested, the offset is never negative, the pages
    cover all the rows, and when there is a row the offset points at one
    (the page shown is not empty). *)
Theorem paginate_bounds (total page : Z) :
  (0 <= total)%Z ->
  let '(total_pages, page', offset) := paginate total page in
  (1 <= page' <= total_pages)%Z /\
  ((1 <= page <= total_pages)%Z -> page' = page) /\
  (0 <= offset)%Z /\
  (total <= total_pages * per_page)%Z /\
  ((0 < total)%Z -> (offset < total)%Z).
Proof.
  intros Ht. unfold paginate, per_page.
  pose proof (Z.div_mod (total + 6 - 1) 6 ltac:(lia)) as D.
  pose proof (Z.mod_pos_bound (total + 6 - 1) 6 ltac:(lia)) as M.
  repeat split; lia.
Qed.

Lemma paginate_bounds_witness :
  let '(total_pages, page', offset) := paginate 13 5 in
  (1 <= page' <= total_pages)%Z /\
  ((1 <= 5 <= total_pages)%Z -> page' = 5%Z) /\
  (0 <= offset)%Z /\
  (13 <= total_pages * per_page)%Z /\
  ((0 < 13)%Z -> (offset < 13)%Z).
Proof. apply (paginate_bounds 13 5). lia. Defined.

Lemma detailed_results_loop_spec other_data results : forall j detailed,
  j + length results <= length other_data ->
  detailed_results_loop other_data j results detailed
  = Ok (detailed ++
        zip_with (fun res sub => mkDetail (similarity res) (peer_username sub))
                 results (drop j other_data)).
Proof.
  induction results as [|res rest IH]; intros j detailed H; simpl.
  - rewrite app_nil_r. reflexivity.
  - simpl in H.
    destruct (other_data !! j) as [sub|] eqn:E.
    + rewrite IH by lia. rewrite (drop_S _ _ _ E). simpl.
      rewrite <- app_assoc. reflexivity.
    + apply lookup_ge_None in E. lia.
Qed.

Lemma zip_details_lookup (f : nat -> float) (others : list peer) : forall k j sub,
  others !! j = Some sub ->
  zip_with (fun res sub => mkDetail (similarity res) (peer_username sub))
    (zip_with (fun doc score => mkEntry doc (percent score))
       (map peer_content others) (map f (seq k (length others))))
    others !! j
  = Some (mkDetail (percent (f (k + j))) (peer_username sub)).
Proof.
  induction others as [|o others IH]; intros k j sub H; [discriminate|].
  destruct j as [|j]; simpl in *.
  - injection H as ->. rewrite Nat.add_0_r. reflexivity.
  - rewrite (IH (S k) j sub H).
    replace (k + S j) with (S k + j) by lia. reflexivity.
Qed.

Lemma zip_details_length (f : nat -> float) (others : list peer) : forall k,
  length (zip_with (fun res sub => mkDetail (similarity res) (peer_username sub))
            (zip_with (fun doc score => mkEntry doc (percent score))
               (map peer_content others) (map f (seq k (length others))))
            others) = length others.
Proof. induction others as [|o others IH]; intros k; simpl; [|rewrite IH]; reflexivity. Qed.

(** X16.  The report of a submission never fails on an index: it
    returns, or [check_plagiarism] raised [ValueError].  When it returns
    details there is one per other submission of the assignment, in
    their order: detail [j] names the user of the [j]-th other submission
    and carries the percentage of the comparison with that submission's
    content; the submission itself is not among them. *)
Theorem submission_report_attribution
    (cosine : list (list str) -> nat -> float)
    (all_data : list peer) (current_id : Z) (document_to_check : str) :
  let other_data :=
    List.filter (fun sub => negb (peer_id sub =? current_id)%Z) all_data in
  let rows :=
    map tokenize (map clean_text (document_to_check :: map peer_content other_data)) in
  match submission_report cosine all_data current_id document_to_check with
  | Ok detailed_results =>
      detailed_results = [] \/
      (length detailed_results = length other_data /\
       forall j sub,
         other_data !! j = Some sub ->
         peer_id sub <> current_id /\
         detailed_results !! j
         = Some (mkDetail (percent (cosine rows j)) (peer_username sub)))
  | Raise e => e = ValueError
  end.
Proof.
  intros other_data rows. unfold submission_report. fold other_data.
  assert (Hrows : rows = map tokenize (map clean_text
                    (document_to_check :: map peer_content other_data)))
    by reflexivity.
  clearbody rows.
  destruct (map peer_content other_data) as [|d ds] eqn:Ed.
  { cbn. left. reflexivity. }
  rewrite <- Ed. rewrite <- Ed in Hrows.
  destruct (check_plagiarism cosine document_to_check (map peer_content other_data))
    as [results|e] eqn:C.
  - cbn [mbind result_bind].
    destruct (check_plagiarism_returns _ _ _ _ C) as [->|Hr]; [left; reflexivity|].
    rewrite <- Hrows, length_map in Hr.
    destruct results as [|res rest] eqn:Er; [left; reflexivity|].
    rewrite <- Er in *. clear Er res rest.
    rewrite detailed_results_loop_spec.
    + right. rewrite drop_0. cbn [app]. rewrite Hr.
      split; [apply zip_details_length|].
      intros j sub Hj. split.
      * apply list_elem_of_lookup_2, list_elem_of_In in Hj.
        apply filter_In in Hj as [_ Hj].
        apply negb_true_iff, Z.eqb_neq in Hj. exact Hj.
      * apply (zip_details_lookup (cosine rows) other_data 0 j sub Hj).
    + rewrite Hr. cbn [Nat.add].
      pose proof (zip_entries_length (cosine rows) (map peer_content other_data) 0) as L.
      rewrite !length_map in L. rewrite L. lia.
  - cbn [mbind result_bind].
    destruct (check_plagiarism cosine document_to_check
                (map peer_content other_data)) eqn:C'; [discriminate|].
    injection C as ->.
    unfold check_plagiarism in C'.
    destruct document_to_check; [discriminate|].
    destruct (_ <? 2); [discriminate|].
    unfold fit_transform in C'. destruct (forallb _ _).
    + cbn in C'. congruence.
    + cbn [mbind result_bind] in C'.
      rewrite collect_results_spec in C'; [discriminate|].
      unfold cosine_similarity. rewrite length_map, length_seq, !length_map.
      cbn [app length]. rewrite length_map. lia.
Qed.

(** ** All the outcomes of check_plagiarism *)

Lemma zip_entries_sources (f : nat -> float) (docs : list str) : forall k,
  map source (zip_with (fun doc score => mkEntry doc (percent score)) docs
                (map f (seq k (length docs)))) = docs.
Proof. induction docs as [|d docs IH]; intros k; simpl; [|rewrite IH]; reflexivity. Qed.

(** X17.  [check_plagiarism] has three outcomes and no other: the empty
    list, when the candidate is empty or there is no source; [ValueError],
    when there are a candidate and sources but no document keeps a token
    once cleaned; otherwise one entry per source, carrying the sources in
    their order.  It never fails on an index. *)
Theorem check_plagiarism_outcome
    (cosine : list (list str) -> nat -> float)
    (user_text : str) (source_documents : list str) :
  match check_plagiarism cosine user_text source_documents with
  | Ok results =>
      (results = [] /\ (user_text = [] \/ source_documents = [])) \/
      (user_text <> [] /\ source_documents <> [] /\
       Exists (fun doc => tokenize (clean_text doc) <> [])
         (user_text :: source_documents) /\
       length results = length source_documents /\
       map source results = source_documents)
  | Raise e =>
      e = ValueError /\ user_text <> [] /\ source_documents <> [] /\
      Forall (fun doc => tokenize (clean_text doc) = [])
        (user_text :: source_documents)
  end.
Proof.
  destruct (check_plagiarism cosine user_text source_documents) as [results|e] eqn:C.
  - destruct user_text as [|c user_text]; [injection C as <-; left; auto|].
    destruct source_documents as [|doc docs]; [injection C as <-; left; auto|].
    right. split; [discriminate|]. split; [discriminate|].
    destruct (check_plagiarism_returns _ _ _ _ C) as [->| ->].
    + exfalso. unfold check_plagiarism in C. cbn [app map length Nat.ltb Nat.leb] in C.
      unfold fit_transform in C. destruct (forallb _ _); [discriminate|].
      cbn [mbind result_bind] in C.
      rewrite collect_results_spec in C
        by (unfold cosine_similarity; rewrite length_map, length_seq;
            cbn [length map]; rewrite !length_map; lia).
      cbn in C. discriminate.
    + split; [|split; [apply zip_entries_length | apply zip_entries_sources]].
      apply Exists_exists.
      destruct (List.Forall_Exists_dec (fun d => tokenize (clean_text d) = [])
                  (fun d => decide (tokenize (clean_text d) = []))
                  ((c :: user_text) :: doc :: docs)) as [F|X].
      * exfalso.
        assert (R : check_plagiarism cosine (c :: user_text) (doc :: docs)
                    = Raise ValueError).
        { apply check_plagiarism_raises_iff.
          split; [discriminate|]. split; [discriminate | exact F]. }
        rewrite R in C. discriminate.
      * apply Exists_exists in X. exact X.
  - destruct e;
      try (exfalso; revert C; unfold check_plagiarism;
           destruct user_text; [discriminate|];
           destruct (_ <? 2); [discriminate|];
           unfold fit_transform; destruct (forallb _ _); [discriminate|];
           cbn [mbind result_bind];
           rewrite collect_results_spec
             by (unfold cosine_similarity; rewrite length_map, length_seq;
                 cbn [app length map]; rewrite !length_map; lia);
           discriminate).
    split; [reflexivity|].
    apply (proj1 (check_plagiarism_raises_iff cosine user_text source_documents)).
    exact C.
Qed.

(** ** Sequence similarity: case and disjoint alphabets *)

Lemma normalize_text_str_lower text :
  normalize_text (str_lower text) = normalize_text text.
Proof. unfold normalize_text. rewrite str_lower_idem. reflexivity. Qed.

(** X18.  The three comparison operations ignore letter case. *)
Theorem checker_operations_ignore_case (A B : str) (w : Z) :
  calculate_similarity (str_lower A) (str_lower B) = calculate_similarity A B /\
  check_phrase_overlap (str_lower A) (str_lower B) w = check_phrase_overlap A B w /\
  check_common_phrases (str_lower A) = check_common_phrases A.
Proof.
  unfold calculate_similarity, check_phrase_overlap, phrase_set, check_common_phrases.
  rewrite !normalize_text_str_lower. repeat split.
Qed.

(** ** Sequence similarity of a text with itself *)

Lemma positions_elem c l : forall k j,
  j ∈ positions c l k <-> k <= j /\ l !! (j - k) = Some c.
Proof.
  induction l as [|x l IH]; intros k j; simpl.
  - rewrite elem_of_nil. split; [contradiction | intros [_ H]; discriminate].
  - destruct (ascii_dec x c) as [->|Hx].
    + rewrite elem_of_cons, IH. split.
      * intros [->|[H1 H2]].
        -- rewrite Nat.sub_diag. auto.
        -- split; [lia|]. replace (j - k) with (S (j - S k)) by lia. exact H2.
      * intros [H1 H2]. destruct (decide (j = k)) as [->|Hne]; [left; reflexivity|].
        right. split; [lia|].
        replace (j - k) with (S (j - S k)) in H2 by lia. exact H2.
    + rewrite IH. split.
      * intros [H1 H2]. split; [lia|].
        replace (j - k) with (S (j - S k)) by lia. exact H2.
      * intros [H1 H2]. destruct (decide (j = k)) as [->|Hne].
        -- rewrite Nat.sub_diag in H2. simpl in H2. congruence.
        -- split; [lia|]. replace (j - k) with (S (j - S k)) in H2 by lia. exact H2.
Qed.

Lemma positions_sorted c l : forall k, StronglySorted lt (positions c l k).
Proof.
  induction l as [|x l IH]; intros k; simpl; [constructor|].
  destruct (ascii_dec x c); [|apply IH].
  constructor; [apply IH|].
  apply Forall_forall. intros j Hj. apply positions_elem in Hj. lia.
Qed.

Lemma b2j_sorted (s : str) c : StronglySorted lt (b2j s c).
Proof.
  unfold b2j. destruct (_ && _); [constructor | apply positions_sorted].
Qed.

Lemma b2j_elem (s : str) c j : j ∈ b2j s c -> s !! j = Some c /\ b2j s c = positions c s 0.
Proof.
  unfold b2j. destruct (_ && _); [intros H; apply elem_of_nil in H; contradiction|].
  intros H. split; [|reflexivity].
  apply positions_elem in H as [_ H]. rewrite Nat.sub_0_r in H. exact H.
Qed.

Section Identity.
Variable s : str.

Lemma hitb_diag i j : hitb s i j = true -> hitb s i i = true /\ hitb s j j = true.
Proof.
  unfold hitb. destruct (s !! i) as [c|] eqn:Ei; [|discriminate].
  intros H. apply bool_decide_eq_true in H.
  destruct (b2j_elem s c j H) as [Ej Eb].
  rewrite Ej. split; apply bool_decide_eq_true.
  - rewrite Eb. apply positions_elem. rewrite Nat.sub_0_r. split; [lia | exact Ei].
  - exact H.
Qed.

Lemma run_hit_pos i j : hitb s i j = true -> 1 <= run s i j.
Proof. intros H. destruct i; cbn [run]; rewrite H; lia. Qed.

Lemma run_diag i : forall j, run s i j <= run s i i /\ run s i j <= run s j j.
Proof.
  induction i as [|i IH]; intros j.
  - cbn [run]. destruct (hitb s 0 j) eqn:H; [|lia].
    destruct (hitb_diag 0 j H) as [H1 H2]. rewrite H1.
    pose proof (run_hit_pos j j H2). lia.
  - cbn [run]. destruct (hitb s (S i) j) eqn:H; [|lia].
    destruct (hitb_diag (S i) j H) as [H1 H2]. rewrite H1.
    destruct j as [|j].
    + pose proof (run_hit_pos 0 0 H2). lia.
    + cbn [run]. rewrite H2. destruct (IH j). lia.
Qed.

Lemma run_step i j :
  hitb s i j = true ->
  match j with
  | O => 0
  | S j' => match i with O => 0 | S i' => run s i' j' end
  end + 1 = run s i j.
Proof.
  intros H. destruct i, j; cbn [run]; rewrite H; lia.
Qed.

Lemma run_miss i j : hitb s i j = false -> run s i j = 0.
Proof. intros H. destruct i; cbn [run]; rewrite H; reflexivity. Qed.

(** The inner loop on row [i]: the lengths it records are the runs, and
    the best block stays on the diagonal. *)
Lemma scan_row_diag i c j2len :
  s !! i = Some c ->
  (forall j', default 0 (j2len !! j') = match i with O => 0 | S i' => run s i' j' end) ->
  forall rest newj2len best,
    StronglySorted lt rest ->
    (forall x, x ∈ rest -> x ∈ b2j s c) ->
    (forall x, x ∈ b2j s c -> x ∈ rest \/ Forall (lt x) rest) ->
    (forall x v, newj2len !! x = Some v -> v = run s i x) ->
    (forall x, x ∈ b2j s c -> Forall (lt x) rest -> newj2len !! x = Some (run s i x)) ->
    m_a best = m_b best ->
    (forall i' j, i' < i -> run s i' j <= m_size best) ->
    (forall x, x ∈ b2j s c -> Forall (lt x) rest -> run s i x <= m_size best) ->
    (forall x, default 0 ((scan_row i 0 (length s) j2len rest newj2len best).1 !! x)
               = run s i x) /\
    m_a (scan_row i 0 (length s) j2len rest newj2len best).2
    = m_b (scan_row i 0 (length s) j2len rest newj2len best).2 /\
    (forall i' j, i' < S i ->
                  run s i' j <= m_size (scan_row i 0 (length s) j2len rest newj2len best).2).
Proof.
  intros Hc Hprev.
  assert (Hhit : forall x, hitb s i x = bool_decide (x ∈ b2j s c))
    by (intros x; unfold hitb; rewrite Hc; reflexivity).
  induction rest as [|j rest IH];
    intros new best Hsort Hsub Hcover Hval Hdone Hdiag Hrows Hrow.
  - cbn [scan_row fst snd]. split; [|split; [exact Hdiag|]].
    + intros x. destruct (decide (x ∈ b2j s c)) as [Hx|Hx].
      * rewrite (Hdone x Hx (Forall_nil_2 _)). reflexivity.
      * rewrite (run_miss i x) by (rewrite Hhit; apply bool_decide_eq_false_2, Hx).
        destruct (new !! x) as [v|] eqn:E; [|reflexivity].
        rewrite (Hval x v E). cbn.
        apply run_miss. rewrite Hhit. apply bool_decide_eq_false_2, Hx.
    + intros i' x Hi'. destruct (decide (i' = i)) as [->|Hne]; [|apply Hrows; lia].
      destruct (decide (x ∈ b2j s c)) as [Hx|Hx].
      * apply Hrow; [exact Hx | constructor].
      * rewrite (run_miss i x); [lia|]. rewrite Hhit. apply bool_decide_eq_false_2, Hx.
  - assert (Hj : j ∈ b2j s c) by (apply Hsub; left).
    assert (Hjn : j < length s)
      by (apply (lookup_lt_Some s j c), (b2j_elem s c j Hj)).
    assert (Hhj : hitb s i j = true) by (rewrite Hhit; apply bool_decide_eq_true_2, Hj).
    inversion Hsort as [|? ? Hsort' Hlt]; subst.
    cbn [scan_row]. replace (j <? 0) with false by reflexivity.
    replace (length s <=? j) with false by (symmetry; apply Nat.leb_gt; exact Hjn).
    assert (Hk : match j with O => 0 | S j' => default 0 (j2len !! j') end + 1
                 = run s i j).
    { rewrite <- (run_step i j Hhj). destruct j as [|j']; [reflexivity|].
      rewrite Hprev. reflexivity. }
    rewrite Hk.
    assert (Hbefore : forall x, x ∈ b2j s c -> Forall (lt x) rest -> x <> j ->
                                Forall (lt x) (j :: rest)).
    { intros x Hx Hr Hne. destruct (Hcover x Hx) as [Hin|Hall]; [|exact Hall].
      apply elem_of_cons in Hin as [->|Hin]; [contradiction|].
      rewrite Forall_forall in Hr. specialize (Hr x Hin). lia. }
    apply IH.
    + exact Hsort'.
    + intros x Hx. apply Hsub. right. exact Hx.
    + intros x Hx. destruct (Hcover x Hx) as [Hin|Hall].
      * apply elem_of_cons in Hin as [->|Hin]; [right; exact Hlt | left; exact Hin].
      * right. inversion Hall; assumption.
    + intros x v. destruct (decide (j = x)) as [->|Hne].
      * rewrite lookup_insert_eq. intros [= <-]. reflexivity.
      * rewrite lookup_insert_ne by exact Hne. apply Hval.
    + intros x Hx Hr. destruct (decide (j = x)) as [->|Hne].
      * apply lookup_insert_eq.
      * rewrite lookup_insert_ne by exact Hne.
        apply Hdone; [exact Hx | apply Hbefore; auto].
    + destruct (m_size best <? run s i j) eqn:Hlt'; [|exact Hdiag].
      apply Nat.ltb_lt in Hlt'. cbn [m_a m_b].
      assert (j = i); [|subst; reflexivity].
      destruct (lt_eq_lt_dec j i) as [[Hji|Hji]|Hji]; [exfalso | exact Hji | exfalso].
      * pose proof (proj2 (run_diag i j)). pose proof (Hrows j j Hji). lia.
      * destruct (hitb_diag i j Hhj) as [Hii _].
        rewrite Hhit in Hii. apply bool_decide_eq_true in Hii.
        pose proof (proj1 (run_diag i j)).
        destruct (Hcover i Hii) as [Hin|Hall].
        -- apply elem_of_cons in Hin as [->|Hin]; [lia|].
           rewrite Forall_forall in Hlt. specialize (Hlt i Hin). lia.
        -- pose proof (Hrow i Hii Hall). lia.
    + intros i' x Hi'. pose proof (Hrows i' x Hi').
      destruct (m_size best <? run s i j) eqn:Hlt'; [|assumption].
      apply Nat.ltb_lt in Hlt'. cbn [m_size]. lia.
    + intros x Hx Hr. destruct (decide (x = j)) as [->|Hne].
      * destruct (m_size best <? run s i j) eqn:Hlt'; cbn [m_size]; [lia|].
        apply Nat.ltb_ge in Hlt'. exact Hlt'.
      * pose proof (Hrow x Hx (Hbefore x Hx Hr Hne)).
        destruct (m_size best <? run s i j) eqn:Hlt'; [|assumption].
        apply Nat.ltb_lt in Hlt'. cbn [m_size]. lia.
Qed.
Lemma scan_rows_diag m : forall i st,
  i + m <= length s ->
  (forall j', default 0 (st.1 !! j') = match i with O => 0 | S i' => run s i' j' end) ->
  m_a st.2 = m_b st.2 ->
  (forall i' j, i' < i -> run s i' j <= m_size st.2) ->
  m_a (fold_left (scan_step s s 0 (length s)) (seq i m) st).2
  = m_b (fold_left (scan_step s s 0 (length s)) (seq i m) st).2.
Proof.
  induction m as [|m IH]; intros i st Hi Hprev Hdiag Hrows; [exact Hdiag|].
  cbn [seq fold_left].
  destruct (lookup_lt_is_Some_2 s i ltac:(lia)) as [c Ec].
  destruct (scan_row_diag i c st.1 Ec Hprev (b2j s c) ∅ st.2) as (H1 & H2 & H3).
  - apply b2j_sorted.
  - auto.
  - auto.
  - intros x v H. rewrite lookup_empty in H. discriminate.
  - intros x Hx Hall. exfalso. rewrite Forall_forall in Hall.
    specialize (Hall x Hx). lia.
  - exact Hdiag.
  - exact Hrows.
  - intros x Hx Hall. exfalso. rewrite Forall_forall in Hall.
    specialize (Hall x Hx). lia.
  - assert (Es : scan_step s s 0 (length s) st i
                 = scan_row i 0 (length s) st.1 (b2j s c) ∅ st.2)
      by (unfold scan_step; exact (f_equal (fun o =>
            match o with
            | Some elt => scan_row i 0 (length s) st.1 (b2j s elt) ∅ st.2
            | None => (∅, st.2)
            end) Ec)).
    rewrite Es. apply IH; [lia | exact H1 | exact H2 | exact H3].
Qed.

Lemma same_elt_diag i : i < length s -> same_elt s s (fun _ => true) i i = true.
Proof.
  intros H. unfold same_elt.
  destruct (_ !! _) as [c|] eqn:E.
  - cbn. apply bool_decide_eq_true_2. reflexivity.
  - apply lookup_ge_None in E. lia.
Qed.

Lemma same_elt_junk i j : same_elt s s isbjunk i j = false.
Proof.
  unfold same_elt, isbjunk.
  destruct (_ !! i); [|reflexivity]. destruct (_ !! j); reflexivity.
Qed.

Lemma extend_left_diag d : forall k,
  d <= length s ->
  extend_left s s (fun _ => true) 0 0 d d k = mkMatch 0 0 (k + d).
Proof.
  induction d as [|d IH]; intros k H; cbn [extend_left].
  - rewrite Nat.add_0_r. reflexivity.
  - rewrite same_elt_diag by lia. cbn. rewrite IH by lia. f_equal. lia.
Qed.

Lemma extend_right_diag m : forall k,
  k + m = length s ->
  extend_right s s (fun _ => true) (length s) (length s) m 0 0 k
  = mkMatch 0 0 (length s).
Proof.
  induction m as [|m IH]; intros k H; cbn [extend_right].
  - f_equal. lia.
  - cbn [Nat.add]. rewrite same_elt_diag by lia.
    replace (k <? length s) with true by (symmetry; apply Nat.ltb_lt; lia).
    cbn. apply IH. lia.
Qed.

Lemma extend_junk_id alo ahi blo bhi m :
  extend s s isbjunk alo ahi blo bhi m = m.
Proof.
  unfold extend.
  assert (L : extend_left s s isbjunk alo blo (m_a m) (m_b m) (m_size m) = m).
  { destruct m as [i j k]. cbn [m_a m_b m_size].
    destruct i, j; cbn [extend_left]; try reflexivity.
    rewrite same_elt_junk, andb_false_r. reflexivity. }
  rewrite L. destruct m as [i j k]. cbn [m_a m_b m_size].
  destruct (ahi - (i + k)); cbn [extend_right]; [reflexivity|].
  rewrite same_elt_junk, andb_false_r. reflexivity.
Qed.

(** Against itself a sequence is one block. *)
Lemma find_longest_match_self :
  find_longest_match s s 0 (length s) 0 (length s) = mkMatch 0 0 (length s).
Proof.
  unfold find_longest_match. rewrite extend_junk_id.
  set (best := (fold_left _ _ _).2).
  assert (Hdiag : m_a best = m_b best).
  { unfold best. rewrite Nat.sub_0_r. apply scan_rows_diag.
    - lia.
    - intros j'. cbn. rewrite lookup_empty. reflexivity.
    - reflexivity.
    - intros i' j Hi'. lia. }
  assert (Hin : inside (0, length s, 0, length s) best).
  { unfold best. apply scan_rows_inv; cbn; try lia.
    apply runs_ok_empty. }
  destruct best as [i j k]. cbn in Hdiag, Hin. subst j.
  unfold extend. cbn [m_a m_b m_size].
  change (fun elt => negb (isbjunk elt)) with (fun _ : ascii => true).
  rewrite extend_left_diag by lia. cbn [m_a m_b m_size Nat.add].
  apply extend_right_diag. lia.
Qed.

Lemma ratio_self : exists q, ratio s s = Ok q /\ (q == 1)%Q.
Proof.
  unfold ratio, get_matching_blocks.
  replace (2 * length s + 1) with (S (2 * length s)) by lia.
  cbn [blocks_loop]. rewrite find_longest_match_self. cbn [m_a m_b m_size].
  destruct (length s) as [|n] eqn:En.
  - cbn. exists 1%Q. split; reflexivity.
  - replace (S n =? 0) with false by reflexivity.
    replace ((0 <? 0) && (0 <? 0)) with false by reflexivity.
    rewrite Nat.ltb_irrefl. cbn [andb app].
    rewrite blocks_loop_done. cbn [mbind result_bind].
    assert (Hb : collapse 0 0 0 (merge_sort match_le [mkMatch 0 0 (S n)]) []
                 ++ [mkMatch (S n) (S n) 0]
                 = [mkMatch 0 0 (S n); mkMatch (S n) (S n) 0]) by reflexivity.
    rewrite Hb. cbn [sum_list_with m_size]. unfold _calculate_ratio.
    replace (S n + S n =? 0) with false by reflexivity.
    unfold truediv.
    destruct (Z.of_nat (S n + S n) =? 0)%Z eqn:Z0; [apply Z.eqb_eq in Z0; lia|].
    eexists. split; [reflexivity|].
    replace (2 * Z.of_nat (S n + (0 + 0)))%Z with (Z.of_nat (S n + S n)) by lia.
    apply Qmult_inv_r. intros H. unfold Qeq in H. simpl in H. lia.
Qed.
End Identity.

(** X19.  Every text has sequence similarity 1 with itself (and with
    any text that normalizes to the same string), autojunk heuristic
    included. *)
Theorem calculate_similarity_identity (A B : str) :
  normalize_text A = normalize_text B ->
  exists q, calculate_similarity A B = Ok q /\ (q == 1)%Q.
Proof.
  intros H. unfold calculate_similarity. rewrite H. apply ratio_self.
Qed.

Lemma calculate_similarity_identity_witness :
  exists q,
    calculate_similarity (lit "Deep Learning!") (lit "deep   learning?") = Ok q /\
    (q == 1)%Q.
Proof.
  apply (calculate_similarity_identity (lit "Deep Learning!") (lit "deep   learning?")).
  reflexivity.
Defined.

(** ** A copy among the compared submissions *)





(** ** Texts without a common character *)

Section Disjoint.
Variables a b : str.
Hypothesis disjoint : forall c, In c a -> In c b -> False.

Lemma positions_none c (l : str) : forall k, ~ In c l -> positions c l k = [].
Proof.
  induction l as [|x l IH]; intros k H; simpl; [reflexivity|].
  destruct (ascii_dec x c) as [->|Hx]; [exfalso; apply H; left; reflexivity|].
  apply IH. intros Hc. apply H. right. exact Hc.
Qed.

Lemma b2j_disjoint c : In c a -> b2j b c = [].
Proof.
  intros Hc. unfold b2j. rewrite positions_none by (intros Hb; exact (disjoint c Hc Hb)).
  destruct (_ && _); reflexivity.
Qed.

Lemma scan_rows_disjoint blo bhi l : forall st,
  (fold_left (scan_step a b blo bhi) l st).2 = st.2.
Proof.
  induction l as [|i l IH]; intros st; simpl; [reflexivity|].
  rewrite IH. unfold scan_step.
  destruct (_ !! _) as [c|] eqn:E; [|reflexivity].
  rewrite b2j_disjoint; [reflexivity|].
  apply list_elem_of_In, list_elem_of_lookup. exists i. exact E.
Qed.

Lemma same_elt_disjoint pred i j : same_elt a b pred i j = false.
Proof.
  unfold same_elt.
  destruct (_ !! i) as [x|] eqn:Ex; [|reflexivity].
  destruct (_ !! j) as [y|] eqn:Ey; [|reflexivity].
  rewrite bool_decide_eq_false_2; [apply andb_false_r|].
  intros ->. apply (disjoint y).
  - apply list_elem_of_In, list_elem_of_lookup. exists i. exact Ex.
  - apply list_elem_of_In, list_elem_of_lookup. exists j. exact Ey.
Qed.

Lemma extend_disjoint pred alo ahi blo bhi m :
  extend a b pred alo ahi blo bhi m = m.
Proof.
  unfold extend.
  assert (L : extend_left a b pred alo blo (m_a m) (m_b m) (m_size m) = m).
  { destruct m as [i j k]. cbn [m_a m_b m_size].
    destruct i, j; cbn [extend_left]; try reflexivity.
    rewrite same_elt_disjoint, andb_false_r. reflexivity. }
  rewrite L. destruct m as [i j k]. cbn [m_a m_b m_size].
  destruct (ahi - (i + k)); cbn [extend_right]; [reflexivity|].
  rewrite same_elt_disjoint, andb_false_r. reflexivity.
Qed.

Lemma find_longest_match_disjoint alo ahi blo bhi :
  find_longest_match a b alo ahi blo bhi = mkMatch alo blo 0.
Proof.
  unfold find_longest_match.
  rewrite !extend_disjoint, scan_rows_disjoint. reflexivity.
Qed.

Lemma ratio_disjoint : ratio a b = _calculate_ratio 0 (length a + length b).
Proof.
  unfold ratio, get_matching_blocks.
  replace (2 * length a + 1) with (S (2 * length a)) by lia.
  cbn [blocks_loop]. rewrite find_longest_match_disjoint. cbn [m_size Nat.eqb].
  rewrite blocks_loop_done. reflexivity.
Qed.
End Disjoint.

(** X21.  Two texts whose normalized forms have no character in common
    have sequence similarity 0 (and 1 when both normalized forms are
    empty, the value the matcher gives to two empty sequences). *)
Theorem calculate_similarity_disjoint (A B : str) :
  (forall c, In c (normalize_text A) -> In c (normalize_text B) -> False) ->
  exists q,
    calculate_similarity A B = Ok q /\
    match normalize_text A, normalize_text B with
    | [], [] => q = 1%Q
    | _, _ => (q == 0)%Q
    end.
Proof.
  intros H. unfold calculate_similarity. rewrite (ratio_disjoint _ _ H).
  unfold _calculate_ratio.
  destruct (normalize_text A) as [|x la], (normalize_text B) as [|y lb];
    cbn [length Nat.add Nat.eqb];
    try (exists 1%Q; split; reflexivity);
    (unfold truediv;
     match goal with |- context [(?d =? 0)%Z] =>
       destruct (Z.eqb_spec d 0) as [Z0|Z0]; [lia|]
     end;
     eexists; split; [reflexivity|];
     unfold Qeq; simpl; lia).
Qed.

Lemma calculate_similarity_disjoint_witness :
  exists q,
    calculate_similarity (lit "Graphs") (lit "2024") = Ok q /\
    match normalize_text (lit "Graphs"), normalize_text (lit "2024") with
    | [], [] => q = 1%Q
    | _, _ => (q == 0)%Q
    end.
Proof.
  apply (calculate_similarity_disjoint (lit "Graphs") (lit "2024")).
  vm_compute. intros c H1 H2.
  repeat (destruct H1 as [<-|H1];
          [repeat (destruct H2 as [H2|H2]; [discriminate H2|]); exact H2|]).
  exact H1.
Defined.

(** ** More submissions, higher scores *)





(** ** What the vector comparison sees of a candidate *)

(** X23.  Two non-empty candidates that clean to the same string get the
    same result from [check_plagiarism] against the same sources: the
    digits, the punctuation and the letter case of the candidate play no
    part. *)
Theorem check_plagiarism_cleaned_candidate
    (cosine : list (list str) -> nat -> float)
    (A A' : str) (source_documents : list str) :
  A <> [] -> A' <> [] ->
  clean_text A = clean_text A' ->
  check_plagiarism cosine A source_documents
  = check_plagiarism cosine A' source_documents.
Proof.
  intros HA HA' Hc. unfold check_plagiarism.
  destruct A as [|x A]; [contradiction|].
  destruct A' as [|x' A']; [contradiction|].
  cbn [app map length]. rewrite Hc. reflexivity.
Qed.

Lemma check_plagiarism_cleaned_candidate_witness :
  check_plagiarism (fun _ _ => 0.5%float) (lit "Hello, World2024!") [lit "hello there"]
  = check_plagiarism (fun _ _ => 0.5%float) (lit "hello world") [lit "hello there"].
Proof.
  apply (check_plagiarism_cleaned_candidate (fun _ _ => 0.5%float)
           (lit "Hello, World2024!") (lit "hello world") [lit "hello there"]).
  - discriminate.
  - discriminate.
  - reflexivity.
Defined.
